(** * Postgres wire messages: validate / read / write

    A shallow embedding of [postgres_message.h] (Envoy network filter
    [postgres_tde]) and the properties of its two-phase parsing.

    The header defines field classes ([Int<T>], [String], [ByteN],
    [VarByteN], [Array<T>], [Repeated<T>], [Sequence<Types...>]) that share
    an implicit interface (the template parameters are duck-typed):
    [validate], [read], [getSize], [write]. On top of them come the message
    classes [MessageImpl<Types...>] and [TypedMessage<Identifier, Types...>].
    Every method that takes [uint64_t& pos, uint64_t& left] is modelled by a
    function that receives the cursor and returns the updated one; the
    object's members are threaded the same way. *)

From Stdlib Require Import ZArith List Lia Bool.
Import ListNotations.
Open Scope Z_scope.

(** ** Machine integers *)

(** [uint64_t], [uint32_t], [uint16_t] arithmetic is arithmetic modulo a
    power of two. *)
Definition uint64 (z : Z) : Z := z mod 2 ^ 64.
Definition uint32 (z : Z) : Z := z mod 2 ^ 32.
Definition uint16 (z : Z) : Z := z mod 2 ^ 16.

(** Conversion to [int32_t] (the return type of every [getSize]); where the
    C++ addition overflows the behaviour is undefined, the model takes the
    two's-complement value. *)
Definition int32 (z : Z) : Z := (z + 2 ^ 31) mod 2 ^ 32 - 2 ^ 31.

(** ** Outcomes of a call *)

(** A call either returns or stops the program: a failed [ASSERT], an
    exception thrown by the buffer, an access past the end of a vector, or a
    loop that is still running when the fuel of the model is used up. *)
Inductive halt : Type :=
| AssertionFailure
| BufferUnderflow
| IndexOutOfRange
| OutOfFuel.

Inductive run (A : Type) : Type :=
| Ret (a : A)
| Stop (h : halt).

Arguments Ret {A} a.
Arguments Stop {A} h.

Definition bind {A B : Type} (c : run A) (k : A -> run B) : run B :=
  match c with
  | Ret a => k a
  | Stop h => Stop h
  end.

Notation "x <- c ;; k" := (bind c (fun x => k))
  (at level 61, c at next level, right associativity).
Notation "' p <- c ;; k" := (bind c (fun x => match x with p => k end))
  (at level 61, p pattern, c at next level, right associativity).

(** Modelled from the spec: the [ASSERT] macro (declared outside the header).
    A violated assertion is fatal: execution halts at once. *)
Definition ASSERT (cond : bool) : run unit :=
  if cond then Ret tt else Stop AssertionFailure.

(** ** The buffer *)

Module Buffer.

(** Modelled from the spec: [Buffer::Instance] (declared outside the
    header) is a byte-addressable view with a total length, a
    non-mutating peek of a big-endian integer at an offset, and appends.
    Bytes are numbers in [0, 256). A peek that reaches past the end has no
    value; it is the buffer's underflow exception. *)
Definition Instance : Type := list Z.

Definition length (data : Instance) : Z := Z.of_nat (List.length data).

Definition decodeBE (bs : list Z) : Z :=
  fold_left (fun acc b => acc * 256 + b) bs 0.

Fixpoint encodeBE (n : nat) (v : Z) : list Z :=
  match n with
  | O => []
  | S n' => encodeBE n' (v / 256) ++ [v mod 256]
  end.

(** The bytes of [data] in the range [from, to). *)
Definition slice (data : Instance) (from to : Z) : list Z :=
  firstn (Z.to_nat (to - from)) (skipn (Z.to_nat from) data).

(** The number of bytes the buffer holds at offset [pos] and after. *)
Definition available (data : Instance) (pos : Z) : Z :=
  Z.of_nat (List.length (skipn (Z.to_nat pos) data)).

Definition peekBEInt (size : Z) (data : Instance) (pos : Z) : run Z :=
  if pos + size <=? length data
  then Ret (decodeBE (slice data pos (pos + size)))
  else Stop BufferUnderflow.

(** The bytes appended by [writeBEInt<T>(v)] with [sizeof(T) = size]. *)
Definition writeBEInt (size : Z) (v : Z) : list Z :=
  encodeBE (Z.to_nat size) v.

Definition writeByte (c : Z) : list Z := [c mod 256].

(** The buffer after the first [n] bytes are drained. *)
Definition drain (n : Z) (data : Instance) : Instance :=
  skipn (Z.to_nat n) data.

Definition well_formed (data : Instance) : Prop :=
  Forall (fun b => 0 <= b < 256) data /\ length data < 2 ^ 64.

End Buffer.

(** ** Validation results *)

Inductive ValidationResult : Type :=
| ValidationFailed
| ValidationOK
| ValidationNeedMoreData.

Definition is_OK (r : ValidationResult) : bool :=
  match r with
  | ValidationOK => true
  | _ => false
  end.

(** ** The interface shared by the field classes *)

Module Field.

(** [state] is the type of the object's members and [init] the
    default-constructed object. [validate fuel data start_offset s pos left]
    returns the result with the updated members and cursor; [fuel] bounds
    the iterations of every [while] loop that runs below the call.
    [write] is given by the bytes it appends to its argument. *)
Record t : Type := Make {
  state : Type;
  init : state;
  validate : nat -> Buffer.Instance -> Z -> state -> Z -> Z ->
             run (ValidationResult * state * Z * Z);
  read : Buffer.Instance -> state -> Z -> Z -> run (bool * state * Z * Z);
  getSize : state -> Z;
  write : state -> list Z
}.

End Field.

(** ** [Int<T>] *)

Module Int.

(** [size] is [sizeof(T)]; the member [value_] is kept as the number read
    (for [Int<char>] the same byte, whatever its sign). *)
Section WithSize.
Variable size : Z.

Definition read (data : Buffer.Instance) (value_ : Z) (pos left : Z)
  : run (bool * Z * Z * Z) :=
  v <- Buffer.peekBEInt size data pos ;;
  Ret (true, v, uint64 (pos + size), uint64 (left - size)).

Definition validate (fuel : nat) (data : Buffer.Instance)
    (start_offset : Z) (value_ : Z) (pos left : Z)
  : run (ValidationResult * Z * Z * Z) :=
  if left <? size then Ret (ValidationFailed, value_, pos, left)
  else if uint64 (Buffer.length data - pos) <? size
  then Ret (ValidationNeedMoreData, value_, pos, left)
  else Ret (ValidationOK, value_, uint64 (pos + size), uint64 (left - size)).

Definition getSize (value_ : Z) : Z := size.

Definition write (value_ : Z) : list Z := Buffer.writeBEInt size value_.

Definition field : Field.t :=
  Field.Make Z 0 validate read getSize write.
End WithSize.

End Int.

Definition Int32 : Field.t := Int.field 4.
Definition Int16 : Field.t := Int.field 2.
Definition Int8 : Field.t := Int.field 1.
Definition Byte1 : Field.t := Int.field 1.

(** ** [String], [ByteN], [VarByteN] *)

(** The header defines [getSize] and [write] of these three classes inline
    and only declares their [validate] and [read], which are taken as
    parameters here. *)

Module String.

(** [start_] and [end_] are set by [validate]; the constructor leaves them
    uninitialised. [value_] is the text without its terminator. *)
Record state : Type := Make {
  start_ : Z;
  end_ : Z;
  value_ : list Z
}.

Section Declared.
Variable validate :
  nat -> Buffer.Instance -> Z -> state -> Z -> Z ->
  run (ValidationResult * state * Z * Z).
Variable read :
  Buffer.Instance -> state -> Z -> Z -> run (bool * state * Z * Z).

Definition getSize (s : state) : Z :=
  int32 (Z.of_nat (List.length (value_ s)) + 1).

(** [to.add(value_.data(), value_.size() + 1)]: the text and the
    terminating zero. *)
Definition write (s : state) : list Z := value_ s ++ [0].

Definition field : Field.t :=
  Field.Make state (Make 0 0 []) validate read getSize write.
End Declared.

End String.

Module ByteN.

Definition state : Type := list Z.

Section Declared.
Variable validate :
  nat -> Buffer.Instance -> Z -> state -> Z -> Z ->
  run (ValidationResult * state * Z * Z).
Variable read :
  Buffer.Instance -> state -> Z -> Z -> run (bool * state * Z * Z).

Definition getSize (value_ : state) : Z :=
  int32 (Z.of_nat (List.length value_)).

Definition write (value_ : state) : list Z := value_.

Definition field : Field.t :=
  Field.Make state [] validate read getSize write.
End Declared.

End ByteN.

Module VarByteN.

(** [std::optional<std::vector<uint8_t>> value_]. *)
Definition state : Type := option (list Z).

Section Declared.
Variable validate :
  nat -> Buffer.Instance -> Z -> state -> Z -> Z ->
  run (ValidationResult * state * Z * Z).
Variable read :
  Buffer.Instance -> state -> Z -> Z -> run (bool * state * Z * Z).

Definition getSize (value_ : state) : Z :=
  int32 (match value_ with
         | Some bytes => Z.of_nat (List.length bytes)
         | None => 0
         end + 4).

Definition write (value_ : state) : list Z :=
  match value_ with
  | Some bytes => Buffer.writeBEInt 4 (Z.of_nat (List.length bytes)) ++ bytes
  | None => Buffer.writeBEInt 4 (-1)
  end.

Definition is_null (value_ : state) : bool :=
  match value_ with
  | Some _ => false
  | None => true
  end.

Definition field : Field.t :=
  Field.Make state None validate read getSize write.
End Declared.

End VarByteN.

(** ** [Array<T>] *)

Module Array.

Section WithElement.
Variable T : Field.t.

(** The member [value_]: the vector of elements. *)
Definition state : Type := list (Field.state T).

(** The [for] loop of [read]: [value_[i]->read(data, pos, left)] for
    [i < size]; the elements' return values are not looked at. *)
Fixpoint read_loop (n : nat) (data : Buffer.Instance) (value_ : state)
    (pos left : Z) : run (state * Z * Z) :=
  match n with
  | O => Ret (value_, pos, left)
  | S n' =>
      match value_ with
      | [] => Stop IndexOutOfRange
      | elem :: rest =>
          '(_, elem', pos', left') <- Field.read T data elem pos left ;;
          '(rest', pos'', left'') <- read_loop n' data rest pos' left' ;;
          Ret (elem' :: rest', pos'', left'')
      end
  end.

Definition read (data : Buffer.Instance) (value_ : state) (pos left : Z)
  : run (bool * state * Z * Z) :=
  size <- Buffer.peekBEInt 2 data pos ;;
  '(value', pos', left') <-
    read_loop (Z.to_nat size) data value_
              (uint64 (pos + 2)) (uint64 (left - 2)) ;;
  Ret (true, value', pos', left').

(** The [for] loop of [validate], with [n] elements still to go. *)
Fixpoint validate_loop (n : nat) (fuel : nat) (data : Buffer.Instance)
    (start_offset : Z) (orig_pos orig_left : Z) (value_ : state)
    (pos left : Z) : run (ValidationResult * state * Z * Z) :=
  match n with
  | O => Ret (ValidationOK, value_, pos, left)
  | S n' =>
      '(result, item, pos', left') <-
        Field.validate T fuel data start_offset (Field.init T) pos left ;;
      if is_OK result
      then validate_loop n' fuel data start_offset orig_pos orig_left
                         (value_ ++ [item]) pos' left'
      else Ret (result, [], orig_pos, orig_left)
  end.

Definition validate (fuel : nat) (data : Buffer.Instance)
    (start_offset : Z) (value_ : state) (pos left : Z)
  : run (ValidationResult * state * Z * Z) :=
  if left <? 2 then Ret (ValidationFailed, value_, pos, left)
  else if uint64 (Buffer.length data - pos) <? 2
  then Ret (ValidationNeedMoreData, value_, pos, left)
  else
    size <- Buffer.peekBEInt 2 data pos ;;
    validate_loop (Z.to_nat size) fuel data start_offset pos left value_
                  (uint64 (pos + 2)) (uint64 (left - 2)).

(** [uint16_t size = 0; for (elem) size += elem->getSize();
    return sizeof(uint16_t) + size;] *)
Definition getSize (value_ : state) : Z :=
  let size :=
    fold_left (fun size elem => uint16 (size + Field.getSize T elem))
              value_ 0 in
  int32 (2 + size).

Definition write (value_ : state) : list Z :=
  Buffer.writeBEInt 2 (Z.of_nat (List.length value_))
  ++ concat (map (Field.write T) value_).

Definition field : Field.t :=
  Field.Make state [] validate read getSize write.
End WithElement.

End Array.

(** ** [Repeated<T>] *)

Module Repeated.

Section WithElement.
Variable T : Field.t.

Definition state : Type := list (Field.state T).

Fixpoint read_loop (data : Buffer.Instance) (value_ : state)
    (pos left : Z) : run (bool * state * Z * Z) :=
  match value_ with
  | [] => Ret (true, [], pos, left)
  | elem :: rest =>
      '(ok, elem', pos', left') <- Field.read T data elem pos left ;;
      if ok : bool
      then '(ok', rest', pos'', left'') <-
             read_loop data rest pos' left' ;;
           Ret (ok', elem' :: rest', pos'', left'')
      else Ret (false, elem' :: rest, pos', left')
  end.

Definition read (data : Buffer.Instance) (value_ : state) (pos left : Z)
  : run (bool * state * Z * Z) :=
  read_loop data value_ pos left.

(** The [while (left != 0)] loop of [validate]; [n] bounds the
    iterations. On [break] the cursor is as the element left it. *)
Fixpoint validate_loop (n : nat) (fuel : nat) (data : Buffer.Instance)
    (start_offset : Z) (value_ : state) (pos left : Z)
  : run (state * Z * Z) :=
  if left =? 0 then Ret (value_, pos, left)
  else
    match n with
    | O => Stop OutOfFuel
    | S n' =>
        '(result, item, pos', left') <-
          Field.validate T fuel data start_offset (Field.init T)
                         pos left ;;
        if is_OK result
        then validate_loop n' fuel data start_offset
                           (value_ ++ [item]) pos' left'
        else Ret (value_, pos', left')
    end.

Definition validate (fuel : nat) (data : Buffer.Instance)
    (start_offset : Z) (value_ : state) (pos left : Z)
  : run (ValidationResult * state * Z * Z) :=
  if uint64 (Buffer.length data - pos) <? left
  then Ret (ValidationNeedMoreData, value_, pos, left)
  else
    '(value', pos', left') <-
      validate_loop fuel fuel data start_offset value_ pos left ;;
    Ret (ValidationOK, value', pos', left').

Definition getSize (value_ : state) : Z :=
  let size :=
    fold_left (fun size elem => uint16 (size + Field.getSize T elem))
              value_ 0 in
  int32 size.

Definition write (value_ : state) : list Z :=
  concat (map (Field.write T) value_).

Definition field : Field.t :=
  Field.Make state [] validate read getSize write.
End WithElement.

End Repeated.

(** ** [Sequence<Types...>] *)

Module Sequence.

(** The terminal definition [Sequence<>]. *)
Definition empty : Field.t :=
  Field.Make unit tt
    (fun _ _ _ s pos left => Ret (ValidationOK, s, pos, left))
    (fun _ s pos left => Ret (true, s, pos, left))
    (fun _ => 0)
    (fun _ => []).

(** [Sequence<FirstField, Remaining...>] with members [first_] and
    [remaining_], the latter a [Sequence<Remaining...>]. *)
Section WithFields.
Variables FirstField Remaining : Field.t.

Definition state : Type :=
  (Field.state FirstField * Field.state Remaining)%type.

Definition read (data : Buffer.Instance) (s : state) (pos left : Z)
  : run (bool * state * Z * Z) :=
  '(result, first', pos', left') <-
    Field.read FirstField data (fst s) pos left ;;
  if result : bool
  then '(result', remaining', pos'', left'') <-
         Field.read Remaining data (snd s) pos' left' ;;
       Ret (result', (first', remaining'), pos'', left'')
  else Ret (false, (first', snd s), pos', left').

Definition validate (fuel : nat) (data : Buffer.Instance)
    (start_offset : Z) (s : state) (pos left : Z)
  : run (ValidationResult * state * Z * Z) :=
  let orig_pos := pos in
  let orig_left := left in
  '(result, first', pos', left') <-
    Field.validate FirstField fuel data start_offset (fst s) pos left ;;
  if is_OK result
  then
    '(result', remaining', pos'', left'') <-
      Field.validate Remaining fuel data start_offset (snd s)
                     pos' left' ;;
    if is_OK result'
    then Ret (ValidationOK, (first', remaining'), pos'', left'')
    else Ret (result', (first', remaining'), orig_pos, orig_left)
  else Ret (result, (first', snd s), orig_pos, orig_left).

Definition getSize (s : state) : Z :=
  int32 (Field.getSize FirstField (fst s)
         + Field.getSize Remaining (snd s)).

Definition write (s : state) : list Z :=
  Field.write FirstField (fst s) ++ Field.write Remaining (snd s).

Definition cons : Field.t :=
  Field.Make state (Field.init FirstField, Field.init Remaining)
             validate read getSize write.
End WithFields.

(** The instantiation at a list of field types. *)
Fixpoint field (Types : list Field.t) : Field.t :=
  match Types with
  | [] => empty
  | FirstField :: Remaining => cons FirstField (field Remaining)
  end.

(** The members of [Sequence<Pre..., Post...>] from those of
    [Sequence<Pre...>] and [Sequence<Post...>]. *)
Fixpoint join (Pre Post : list Field.t)
  : Field.state (field Pre) -> Field.state (field Post) ->
    Field.state (field (Pre ++ Post)) :=
  match Pre with
  | [] => fun _ post => post
  | F :: Pre' => fun pre post => (fst pre, join Pre' Post (snd pre) post)
  end.

End Sequence.

(** ** [Message], [MessageImpl<Types...>] and [TypedMessage<Identifier, Types...>] *)

Module Message.

(** The base class holds [validation_result_], initially
    [ValidationNeedMoreData]; a message with fields [Types...] also holds
    the members of its [Sequence<Types...>]. *)
Record t (Types : list Field.t) : Type := Make {
  validation_result_ : ValidationResult;
  fields : Field.state (Sequence.field Types)
}.

Arguments Make {Types} _ _.
Arguments validation_result_ {Types} _.
Arguments fields {Types} _.

Definition init (Types : list Field.t) : t Types :=
  Make ValidationNeedMoreData (Field.init (Sequence.field Types)).

End Message.

Module MessageImpl.

Section WithTypes.
Variable Types : list Field.t.

(** Selects the specialisation [MessageImpl<>]. *)
Definition no_fields : bool :=
  match Types with
  | [] => true
  | _ :: _ => false
  end.

Definition read (data : Buffer.Instance) (length : Z)
    (m : Message.t Types) : run (bool * Message.t Types) :=
  if no_fields then Ret (true, m)
  else
    _ <- ASSERT (is_OK (Message.validation_result_ m)) ;;
    let pos := 0 in
    let left := length in
    '(result, fields', _, _) <-
      Field.read (Sequence.field Types) data (Message.fields m)
                 pos left ;;
    Ret (result, Message.Make (Message.validation_result_ m) fields').

Definition validate (fuel : nat) (data : Buffer.Instance)
    (start_pos length : Z) (m : Message.t Types)
  : run (ValidationResult * Message.t Types) :=
  if no_fields then Ret (ValidationOK, m)
  else
    let pos := start_pos in
    let left := length in
    '(result, fields', _, _) <-
      Field.validate (Sequence.field Types) fuel data start_pos
                     (Message.fields m) pos left ;;
    Ret (result, Message.Make result fields').

(** The overload [write(Buffer::Instance& to, char identifier)]. *)
Definition write_identifier (m : Message.t Types) (identifier : Z)
  : list Z :=
  if no_fields
  then Buffer.writeByte identifier ++ Buffer.writeBEInt 4 4
  else Buffer.writeByte identifier
       ++ Buffer.writeBEInt 4
            (Field.getSize (Sequence.field Types) (Message.fields m) + 4)
       ++ Field.write (Sequence.field Types) (Message.fields m).

Definition isWriteable (m : Message.t Types) : bool := false.

(** The override [write(Buffer::Instance&)]: [ASSERT(false)]. *)
Definition write (m : Message.t Types) : run (list Z) :=
  _ <- ASSERT false ;;
  Ret [].
End WithTypes.

End MessageImpl.

Module TypedMessage.

Section WithIdentifier.
Variable Identifier : Z.
Variable Types : list Field.t.

Definition isWriteable (m : Message.t Types) : bool := true.

Definition write (m : Message.t Types) : run (list Z) :=
  Ret (MessageImpl.write_identifier Types m Identifier).

(** [read] and [validate] are inherited. *)
Definition read := MessageImpl.read Types.
Definition validate := MessageImpl.validate Types.
End WithIdentifier.

End TypedMessage.

(** ** Notions used to state the properties *)

(** [elements_ok T fuel data so pos left items pos' left']: starting at
    cursor [(pos, left)], freshly constructed elements of type [T] were
    validated one after the other, each returning [ValidationOK]; [items] are
    the elements after validation and [(pos', left')] the final cursor. *)
Inductive elements_ok (T : Field.t) (fuel : nat) (data : Buffer.Instance)
    (start_offset : Z)
  : Z -> Z -> list (Field.state T) -> Z -> Z -> Prop :=
| elements_ok_nil pos left :
    elements_ok T fuel data start_offset pos left [] pos left
| elements_ok_cons pos left item pos1 left1 items pos2 left2 :
    Field.validate T fuel data start_offset (Field.init T) pos left
      = Ret (ValidationOK, item, pos1, left1) ->
    elements_ok T fuel data start_offset pos1 left1 items pos2 left2 ->
    elements_ok T fuel data start_offset pos left (item :: items) pos2 left2.

(** The same for the loop of [Repeated<T>], which attempts an element only
    while the remaining budget is not zero. *)
Inductive repeated_ok (T : Field.t) (fuel : nat) (data : Buffer.Instance)
    (start_offset : Z)
  : Z -> Z -> list (Field.state T) -> Z -> Z -> Prop :=
| repeated_ok_nil pos left :
    repeated_ok T fuel data start_offset pos left [] pos left
| repeated_ok_cons pos left item pos1 left1 items pos2 left2 :
    left <> 0 ->
    Field.validate T fuel data start_offset (Field.init T) pos left
      = Ret (ValidationOK, item, pos1, left1) ->
    repeated_ok T fuel data start_offset pos1 left1 items pos2 left2 ->
    repeated_ok T fuel data start_offset pos left (item :: items) pos2 left2.

(** [fields_ok fuel data so Types s pos left s' pos' left']: the fields of
    the chain [Types], with members [s], were validated in declared order
    from cursor [(pos, left)] and every one returned [ValidationOK]. *)
Inductive fields_ok (fuel : nat) (data : Buffer.Instance) (start_offset : Z)
  : forall Types : list Field.t,
    Field.state (Sequence.field Types) -> Z -> Z ->
    Field.state (Sequence.field Types) -> Z -> Z -> Prop :=
| fields_ok_nil s pos left :
    fields_ok fuel data start_offset [] s pos left s pos left
| fields_ok_cons F Types (s : Field.state (Sequence.field (F :: Types)))
      pos left first' pos1 left1 remaining' pos2 left2 :
    Field.validate F fuel data start_offset (fst s) pos left
      = Ret (ValidationOK, first', pos1, left1) ->
    fields_ok fuel data start_offset Types (snd s) pos1 left1
              remaining' pos2 left2 ->
    fields_ok fuel data start_offset (F :: Types) s pos left
              (first', remaining') pos2 left2.

(** [element_progress T fuel data so]: every attempt to validate a fresh
    element of type [T] at a position inside the buffer, with some budget
    left, returns; and an element that validates leaves the position inside
    the buffer and takes at least one byte of the budget. *)
Definition element_progress (T : Field.t) (fuel : nat)
    (data : Buffer.Instance) (start_offset : Z) : Prop :=
  forall pos left,
    0 <= pos <= Buffer.length data ->
    0 < left ->
    exists result item pos' left',
      Field.validate T fuel data start_offset (Field.init T) pos left
        = Ret (result, item, pos', left')
      /\ (result = ValidationOK ->
          0 <= pos' <= Buffer.length data /\ 0 <= left' < left).

(** [restores_cursor F]: a [validate] of [F] that returns a result other
    than [ValidationOK] leaves position and remaining budget as it found
    them. *)
Definition restores_cursor (F : Field.t) : Prop :=
  forall fuel data start_offset s pos left result s' pos' left',
    Field.validate F fuel data start_offset s pos left
      = Ret (result, s', pos', left') ->
    result <> ValidationOK ->
    pos' = pos /\ left' = left.

(** [roundtrip F]: when a freshly constructed [F] validates at a cursor
    inside the buffer, the cursor moves forward inside the buffer and the
    budget drops by the same amount; [read] on the buffer drained of the
    bytes before the message returns true at the same cursor (taken from the
    start of the message), and [write] then gives back the bytes that
    [validate] went over. *)
Definition roundtrip (F : Field.t) : Prop :=
  forall fuel data start_offset pos left s' pos' left',
    Buffer.well_formed data ->
    0 <= start_offset <= pos ->
    pos <= Buffer.length data ->
    0 <= left < 2 ^ 64 ->
    Field.validate F fuel data start_offset (Field.init F) pos left
      = Ret (ValidationOK, s', pos', left') ->
    pos <= pos' <= Buffer.length data
    /\ 0 <= left'
    /\ left' = left - (pos' - pos)
    /\ exists s'',
         Field.read F (Buffer.drain start_offset data) s'
                    (pos - start_offset) left
           = Ret (true, s'', pos' - start_offset, left')
         /\ Field.write F s'' = Buffer.slice data pos pos'.

(** The field classes whose [validate] and [read] are defined in the
    header: the integers, arrays and repetitions of such fields, and
    sequences of them. *)
Inductive header_field : Field.t -> Prop :=
| header_Int size :
    size = 1 \/ size = 2 \/ size = 4 -> header_field (Int.field size)
| header_Array T :
    header_field T -> header_field (Array.field T)
| header_Repeated T :
    header_field T -> header_field (Repeated.field T)
| header_Sequence_empty :
    header_field Sequence.empty
| header_Sequence_cons FirstField Remaining :
    header_field FirstField -> header_field Remaining ->
    header_field (Sequence.cons FirstField Remaining).

(** ** Notions used to state the further properties *)

(** [conserves_cursor F]: a [validate] of [F] that starts inside the buffer
    and returns [ValidationOK] moves the position forward, not past the end
    of the buffer, and takes exactly that many bytes off the budget. *)
Definition conserves_cursor (F : Field.t) : Prop :=
  forall fuel data start_offset s pos left s' pos' left',
    Buffer.length data < 2 ^ 64 ->
    0 <= pos <= Buffer.length data ->
    0 <= left < 2 ^ 64 ->
    Field.validate F fuel data start_offset s pos left
      = Ret (ValidationOK, s', pos', left') ->
    pos <= pos' <= Buffer.length data
    /\ 0 <= left'
    /\ left' = left - (pos' - pos).

(** [short_when_more_needed F]: a [validate] of [F] that starts inside the
    buffer returns [ValidationNeedMoreData] only when the buffer holds fewer
    bytes at the position than the budget asks for. *)
Definition short_when_more_needed (F : Field.t) : Prop :=
  forall fuel data start_offset s pos left s' pos' left',
    Buffer.length data < 2 ^ 64 ->
    0 <= pos <= Buffer.length data ->
    0 <= left < 2 ^ 64 ->
    Field.validate F fuel data start_offset s pos left
      = Ret (ValidationNeedMoreData, s', pos', left') ->
    Buffer.length data - pos < left.

(** [stable_under_growth F]: what a [validate] of [F] returned with
    [ValidationOK] or [ValidationFailed] it returns again, members and
    cursor included, once more bytes have been appended to the buffer. *)
Definition stable_under_growth (F : Field.t) : Prop :=
  forall fuel data more start_offset s pos left result s' pos' left',
    Buffer.length (data ++ more) < 2 ^ 64 ->
    0 <= pos <= Buffer.length data ->
    0 <= left < 2 ^ 64 ->
    Field.validate F fuel data start_offset s pos left
      = Ret (result, s', pos', left') ->
    result <> ValidationNeedMoreData ->
    Field.validate F fuel (data ++ more) start_offset s pos left
      = Ret (result, s', pos', left').

(** [fields_read data Types s pos left s' pos' left']: the fields of the
    chain [Types], with members [s], were read in declared order from
    cursor [(pos, left)] and every [read] returned true. *)
Inductive fields_read (data : Buffer.Instance)
  : forall Types : list Field.t,
    Field.state (Sequence.field Types) -> Z -> Z ->
    Field.state (Sequence.field Types) -> Z -> Z -> Prop :=
| fields_read_nil s pos left :
    fields_read data [] s pos left s pos left
| fields_read_cons F Types (s : Field.state (Sequence.field (F :: Types)))
      pos left first' pos1 left1 remaining' pos2 left2 :
    Field.read F data (fst s) pos left = Ret (true, first', pos1, left1) ->
    fields_read data Types (snd s) pos1 left1 remaining' pos2 left2 ->
    fields_read data (F :: Types) s pos left (first', remaining') pos2 left2.

(** [elements_read T data pos left elems oks elems' pos' left']: [read] was
    called on the elements [elems] one after the other from cursor
    [(pos, left)]; [oks] are the values returned and [elems'] the elements
    afterwards. *)
Inductive elements_read (T : Field.t) (data : Buffer.Instance)
  : Z -> Z -> list (Field.state T) -> list bool ->
    list (Field.state T) -> Z -> Z -> Prop :=
| elements_read_nil pos left :
    elements_read T data pos left [] [] [] pos left
| elements_read_cons pos left elem ok elem' pos1 left1
      elems oks elems' pos2 left2 :
    Field.read T data elem pos left = Ret (ok, elem', pos1, left1) ->
    elements_read T data pos1 left1 elems oks elems' pos2 left2 ->
    elements_read T data pos left (elem :: elems) (ok :: oks)
                  (elem' :: elems') pos2 left2.

(** A stand-in for a field type whose [read] can return false (it does so
    when no budget is left, and otherwise takes one byte), used to
    exercise [Sequence::read] and [Repeated<T>::read]. *)
Definition refusing_field : Field.t :=
  String.field
    (fun _ _ _ s pos left => Ret (ValidationOK, s, pos, left))
    (fun _ s pos left =>
       if left =? 0 then Ret (false, s, pos, left)
       else Ret (true, String.Make pos pos [], pos + 1, left - 1)).

(** [wire_value F s]: the members [s] of a field of type [F], built from
    integers, arrays and sequences, hold what can be written and read back:
    every integer lies in the range of its width and every array holds
    fewer than 65536 elements. *)
Inductive wire_value : forall F : Field.t, Field.state F -> Prop :=
| wire_Int size v :
    size = 1 \/ size = 2 \/ size = 4 ->
    0 <= v < 256 ^ size ->
    wire_value (Int.field size) v
| wire_Array T (elems : list (Field.state T)) :
    wire_elements T elems ->
    Z.of_nat (List.length elems) < 2 ^ 16 ->
    wire_value (Array.field T) elems
| wire_Sequence_empty :
    wire_value Sequence.empty tt
| wire_Sequence_cons F R first remaining :
    wire_value F first ->
    wire_value R remaining ->
    wire_value (Sequence.cons F R) (first, remaining)
with wire_elements : forall T : Field.t, list (Field.state T) -> Prop :=
| wire_elements_nil T :
    wire_elements T []
| wire_elements_cons T elem elems :
    wire_value T elem ->
    wire_elements T elems ->
    wire_elements T (elem :: elems).

Scheme wire_value_mut := Minimality for wire_value Sort Prop
  with wire_elements_mut := Minimality for wire_elements Sort Prop.

(** [reads_back F s]: wherever the bytes written for [s] stand in a buffer,
    inside the budget, a fresh [F] validates over exactly these bytes, and
    [read] on the buffer drained of the bytes before the message then
    returns true with the members [s]. *)
Definition reads_back (F : Field.t) (s : Field.state F) : Prop :=
  forall fuel data start_offset pos left,
    Buffer.length data < 2 ^ 64 ->
    0 <= start_offset <= pos ->
    pos + Z.of_nat (List.length (Field.write F s)) <= Buffer.length data ->
    Buffer.slice data pos (pos + Z.of_nat (List.length (Field.write F s)))
      = Field.write F s ->
    Z.of_nat (List.length (Field.write F s)) <= left < 2 ^ 64 ->
    exists s1,
      Field.validate F fuel data start_offset (Field.init F) pos left
        = Ret (ValidationOK, s1,
               pos + Z.of_nat (List.length (Field.write F s)),
               left - Z.of_nat (List.length (Field.write F s)))
      /\ Field.read F (Buffer.drain start_offset data) s1
                    (pos - start_offset) left
         = Ret (true, s,
                pos + Z.of_nat (List.length (Field.write F s)) - start_offset,
                left - Z.of_nat (List.length (Field.write F s))).

(** The same for the elements of an array, through the loops of
    [Array<T>::validate] and [Array<T>::read]. *)
Definition elements_read_back (T : Field.t) (elems : list (Field.state T))
  : Prop :=
  forall fuel data start_offset orig_pos orig_left value_ pos left,
    Buffer.length data < 2 ^ 64 ->
    0 <= start_offset <= pos ->
    pos + Z.of_nat (List.length (concat (map (Field.write T) elems)))
      <= Buffer.length data ->
    Buffer.slice data pos
      (pos + Z.of_nat (List.length (concat (map (Field.write T) elems))))
      = concat (map (Field.write T) elems) ->
    Z.of_nat (List.length (concat (map (Field.write T) elems)))
      <= left < 2 ^ 64 ->
    exists items,
      Array.validate_loop T (List.length elems) fuel data start_offset
                          orig_pos orig_left value_ pos left
        = Ret (ValidationOK, value_ ++ items,
               pos + Z.of_nat (List.length
                                 (concat (map (Field.write T) elems))),
               left - Z.of_nat (List.length
                                  (concat (map (Field.write T) elems))))
      /\ Array.read_loop T (List.length elems)
                         (Buffer.drain start_offset data) items
                         (pos - start_offset) left
         = Ret (elems,
                pos + Z.of_nat (List.length
                                  (concat (map (Field.write T) elems)))
                - start_offset,
                left - Z.of_nat (List.length
                                   (concat (map (Field.write T) elems)))).

(** * Properties *)

(** ** Arithmetic and buffer lemmas *)

Lemma uint64_small (z : Z) : 0 <= z < 2 ^ 64 -> uint64 z = z.
Proof. intros H. unfold uint64. now apply Z.mod_small. Qed.

Lemma available_in_range (data : Buffer.Instance) (pos : Z) :
  0 <= pos <= Buffer.length data ->
  Buffer.available data pos = Buffer.length data - pos.
Proof.
  unfold Buffer.available, Buffer.length. intros H.
  rewrite length_skipn. lia.
Qed.

Lemma decodeBE_snoc (bs : list Z) (b : Z) :
  Buffer.decodeBE (bs ++ [b]) = Buffer.decodeBE bs * 256 + b.
Proof. unfold Buffer.decodeBE. now rewrite fold_left_app. Qed.

Lemma encodeBE_decodeBE (bs : list Z) :
  Forall (fun b => 0 <= b < 256) bs ->
  Buffer.encodeBE (List.length bs) (Buffer.decodeBE bs) = bs.
Proof.
  induction bs as [| b bs IH] using rev_ind; intros Hbs; [reflexivity |].
  apply Forall_app in Hbs. destruct Hbs as [Hbs Hb].
  inversion Hb as [| ? ? Hb0 _]; subst.
  rewrite length_app, Nat.add_comm. simpl.
  rewrite decodeBE_snoc.
  rewrite Z.div_add_l by lia. rewrite (Z.div_small b) by lia.
  rewrite Z.add_0_r, IH by assumption.
  rewrite Z.add_comm, Z.mod_add by lia.
  now rewrite Z.mod_small by lia.
Qed.

Lemma firstn_plus {A : Type} (a b : nat) (l : list A) :
  firstn (a + b) l = firstn a l ++ firstn b (skipn a l).
Proof.
  revert l. induction a as [| a IH]; intros l; [reflexivity |].
  destruct l as [| x l]; simpl.
  - now rewrite firstn_nil.
  - now rewrite IH.
Qed.

Lemma slice_app (data : Buffer.Instance) (from mid to : Z) :
  0 <= from <= mid -> mid <= to ->
  Buffer.slice data from mid ++ Buffer.slice data mid to
  = Buffer.slice data from to.
Proof.
  intros H1 H2. unfold Buffer.slice.
  replace (Z.to_nat (to - from))
    with (Z.to_nat (mid - from) + Z.to_nat (to - mid))%nat by lia.
  rewrite firstn_plus. f_equal. f_equal.
  rewrite skipn_skipn. f_equal. lia.
Qed.

Lemma slice_empty (data : Buffer.Instance) (pos : Z) :
  Buffer.slice data pos pos = [].
Proof. unfold Buffer.slice. now rewrite Z.sub_diag. Qed.

Lemma slice_length (data : Buffer.Instance) (from to : Z) :
  0 <= from <= to -> to <= Buffer.length data ->
  List.length (Buffer.slice data from to) = Z.to_nat (to - from).
Proof.
  unfold Buffer.slice, Buffer.length. intros H1 H2.
  rewrite length_firstn, length_skipn. lia.
Qed.

Lemma Forall_firstn_of {A : Type} (P : A -> Prop) (n : nat) (l : list A) :
  Forall P l -> Forall P (firstn n l).
Proof.
  revert l. induction n as [| n IH]; intros l H; [constructor |].
  destruct H; simpl; constructor; auto.
Qed.

Lemma Forall_skipn_of {A : Type} (P : A -> Prop) (n : nat) (l : list A) :
  Forall P l -> Forall P (skipn n l).
Proof.
  revert l. induction n as [| n IH]; intros l H; [assumption |].
  destruct H; simpl; auto.
Qed.

Lemma slice_bytes (data : Buffer.Instance) (from to : Z) :
  Forall (fun b => 0 <= b < 256) data ->
  Forall (fun b => 0 <= b < 256) (Buffer.slice data from to).
Proof.
  intros H. unfold Buffer.slice.
  now apply Forall_firstn_of, Forall_skipn_of.
Qed.

Lemma drain_length (data : Buffer.Instance) (n : Z) :
  0 <= n <= Buffer.length data ->
  Buffer.length (Buffer.drain n data) = Buffer.length data - n.
Proof.
  unfold Buffer.length, Buffer.drain. intros H. rewrite length_skipn. lia.
Qed.

Lemma slice_drain (data : Buffer.Instance) (n from to : Z) :
  0 <= n <= from ->
  Buffer.slice (Buffer.drain n data) (from - n) (to - n)
  = Buffer.slice data from to.
Proof.
  intros H. unfold Buffer.slice, Buffer.drain.
  rewrite skipn_skipn. f_equal; [f_equal; lia |]. f_equal. lia.
Qed.

Lemma peekBEInt_drain (size : Z) (data : Buffer.Instance) (n pos : Z) :
  0 <= n <= pos -> n <= Buffer.length data ->
  Buffer.peekBEInt size (Buffer.drain n data) (pos - n)
  = Buffer.peekBEInt size data pos.
Proof.
  intros H1 H2. unfold Buffer.peekBEInt.
  rewrite drain_length by lia.
  replace (pos - n + size) with (pos + size - n) by lia.
  rewrite slice_drain by lia.
  destruct (Z.leb_spec (pos + size - n) (Buffer.length data - n));
    destruct (Z.leb_spec (pos + size) (Buffer.length data));
    try reflexivity; lia.
Qed.

Lemma writeBEInt_peekBEInt (size : Z) (data : Buffer.Instance) (pos v : Z) :
  Forall (fun b => 0 <= b < 256) data ->
  0 <= pos -> 0 <= size ->
  Buffer.peekBEInt size data pos = Ret v ->
  Buffer.writeBEInt size v = Buffer.slice data pos (pos + size).
Proof.
  intros Hbytes Hpos Hsize. unfold Buffer.peekBEInt, Buffer.writeBEInt.
  destruct (Z.leb_spec (pos + size) (Buffer.length data)); [| discriminate].
  intros E. inversion E; subst v.
  rewrite <- (encodeBE_decodeBE (Buffer.slice data pos (pos + size)))
    at 2 by now apply slice_bytes.
  rewrite slice_length by lia. do 2 f_equal. lia.
Qed.

Lemma is_OK_false (r : ValidationResult) : r <> ValidationOK -> is_OK r = false.
Proof. destruct r; simpl; congruence. Qed.

Lemma is_OK_true (r : ValidationResult) : is_OK r = true -> r = ValidationOK.
Proof. destruct r; simpl; congruence. Qed.

(** ** [Int<T>::validate] *)

(** C5 (as amended). For a fixed-width integer field of width 1, 2 or 4 and a
    cursor that lies inside the buffer: [validate] returns [ValidationFailed]
    when the remaining budget is below the width; otherwise
    [ValidationNeedMoreData] when the buffer holds fewer than width bytes at
    the position; otherwise it advances the position by the width, lowers the
    budget by the width and returns [ValidationOK]. In the two other cases the
    cursor is unchanged. *)
Theorem Int_validate_cases (size : Z) (fuel : nat) (data : Buffer.Instance)
    (start_offset value_ pos left : Z) :
  size = 1 \/ size = 2 \/ size = 4 ->
  Buffer.length data < 2 ^ 64 ->
  0 <= pos <= Buffer.length data ->
  0 <= left < 2 ^ 64 ->
  (left < size ->
   Int.validate size fuel data start_offset value_ pos left
   = Ret (ValidationFailed, value_, pos, left))
  /\ (size <= left -> Buffer.available data pos < size ->
      Int.validate size fuel data start_offset value_ pos left
      = Ret (ValidationNeedMoreData, value_, pos, left))
  /\ (size <= left -> size <= Buffer.available data pos ->
      Int.validate size fuel data start_offset value_ pos left
      = Ret (ValidationOK, value_, pos + size, left - size)).
Proof.
  intros Hsize Hlen Hpos Hleft.
  rewrite (available_in_range data pos Hpos).
  unfold Int.validate.
  rewrite (uint64_small (Buffer.length data - pos)) by lia.
  repeat split; intros.
  - destruct (Z.ltb_spec left size); [reflexivity | lia].
  - destruct (Z.ltb_spec left size); [lia |].
    destruct (Z.ltb_spec (Buffer.length data - pos) size); [reflexivity | lia].
  - destruct (Z.ltb_spec left size); [lia |].
    destruct (Z.ltb_spec (Buffer.length data - pos) size); [lia |].
    rewrite !uint64_small by lia. reflexivity.
Qed.

Lemma Int_validate_cases_witness :
  Int.validate 2 0 [1; 2; 3] 0 0 1 1 = Ret (ValidationFailed, 0, 1, 1)
  /\ Int.validate 2 0 [1; 2; 3] 0 0 2 5 = Ret (ValidationNeedMoreData, 0, 2, 5)
  /\ Int.validate 2 0 [1; 2; 3] 0 0 1 5 = Ret (ValidationOK, 0, 1 + 2, 5 - 2).
Proof.
  split; [| split].
  - apply (Int_validate_cases 2 0 [1; 2; 3] 0 0 1 1);
      vm_compute; intuition congruence.
  - apply (Int_validate_cases 2 0 [1; 2; 3] 0 0 2 5);
      vm_compute; intuition congruence.
  - apply (Int_validate_cases 2 0 [1; 2; 3] 0 0 1 5);
      vm_compute; intuition congruence.
Defined.

(** C5, counterexample. With the cursor past the end of the buffer the
    unsigned difference [data.length() - pos] wraps around: an [Int8] at
    position 1 of the empty buffer, with budget 1, is reported
    [ValidationOK] and the cursor advances, although the buffer holds no
    byte there. *)
Lemma Int8_validate_cursor_past_end :
  1 <= 1
  /\ Buffer.available [] 1 < 1
  /\ Int.validate 1 0 [] 0 0 1 1 = Ret (ValidationOK, 0, 2, 0)
  /\ Int.validate 1 0 [] 0 0 1 1 <> Ret (ValidationNeedMoreData, 0, 1, 1).
Proof. vm_compute. repeat split; congruence. Qed.

(** ** [Sequence::validate] *)

Lemma Sequence_validate_unfold (F : Field.t) (Types : list Field.t)
    (fuel : nat) (data : Buffer.Instance) (start_offset : Z)
    (s : Field.state (Sequence.field (F :: Types))) (pos left : Z) :
  Field.validate (Sequence.field (F :: Types)) fuel data start_offset s pos left
  = Sequence.validate F (Sequence.field Types) fuel data start_offset s pos left.
Proof. reflexivity. Qed.

(** C1. In a chain [Pre..., F, Post...]: when the fields of [Pre] validate
    [ValidationOK] in order and [F] then returns a result other than
    [ValidationOK], the sequence's [validate] returns that result with the
    cursor (position and remaining) as it was before the first field; the
    members of the later fields [Post] come back untouched whatever their
    types are, so none of them was attempted. *)
Theorem Sequence_validate_first_failure
    (fuel : nat) (data : Buffer.Instance) (start_offset : Z)
    (Pre : list Field.t) (F : Field.t) (Post : list Field.t)
    (pre pre' : Field.state (Sequence.field Pre))
    (first first' : Field.state F)
    (post : Field.state (Sequence.field Post))
    (pos left pos1 left1 pos2 left2 : Z) (result : ValidationResult) :
  fields_ok fuel data start_offset Pre pre pos left pre' pos1 left1 ->
  Field.validate F fuel data start_offset first pos1 left1
    = Ret (result, first', pos2, left2) ->
  result <> ValidationOK ->
  Field.validate (Sequence.field (Pre ++ F :: Post)) fuel data start_offset
                 (Sequence.join Pre (F :: Post) pre (first, post)) pos left
  = Ret (result, Sequence.join Pre (F :: Post) pre' (first', post), pos, left).
Proof.
  intros Hpre. revert first first' post pos2 left2 result.
  induction Hpre as [s pos left
                    | G Types s pos left g' p1 l1 rest' p2 l2 HG Hrest IH];
    intros first first' post pos2 left2 result HF Hres.
  - simpl Sequence.join. simpl app.
    rewrite Sequence_validate_unfold. unfold Sequence.validate. simpl fst.
    rewrite HF. simpl. rewrite (is_OK_false _ Hres). reflexivity.
  - simpl app. rewrite Sequence_validate_unfold.
    unfold Sequence.validate. simpl Sequence.join. simpl fst. simpl snd.
    rewrite HG. simpl bind. simpl is_OK. cbv iota.
    rewrite (IH first first' post pos2 left2 result HF Hres).
    simpl. rewrite (is_OK_false _ Hres). reflexivity.
Qed.

Lemma Sequence_validate_first_failure_witness :
  Field.validate (Sequence.field ([Int8] ++ Int32 :: [Int16])) 0
                 [7; 0; 0] 0
                 (Sequence.join [Int8] [Int32; Int16] (5, tt) (6, (9, tt)))
                 0 8
  = Ret (ValidationNeedMoreData,
         Sequence.join [Int8] [Int32; Int16] (5, tt) (6, (9, tt)), 0, 8).
Proof.
  apply (Sequence_validate_first_failure 0 [7; 0; 0] 0 [Int8] Int32 [Int16]
           (5, tt) (5, tt) 6 6 (9, tt) 0 8 1 7 1 7 ValidationNeedMoreData).
  - apply (fields_ok_cons 0 [7; 0; 0] 0 Int8 [] (5, tt) 0 8 5 1 7 tt 1 7).
    + reflexivity.
    + apply fields_ok_nil.
  - reflexivity.
  - discriminate.
Defined.

(** ** [Array<T>::validate] *)

Section ArrayValidate.
Variable T : Field.t.
Variables (fuel : nat) (data : Buffer.Instance) (start_offset : Z).
Variables orig_pos orig_left : Z.

Lemma Array_loop_failure items pos left pos1 left1 :
  elements_ok T fuel data start_offset pos left items pos1 left1 ->
  forall n value_ result item pos2 left2,
    (List.length items < n)%nat ->
    Field.validate T fuel data start_offset (Field.init T) pos1 left1
      = Ret (result, item, pos2, left2) ->
    result <> ValidationOK ->
    Array.validate_loop T n fuel data start_offset orig_pos orig_left
                        value_ pos left
    = Ret (result, [], orig_pos, orig_left).
Proof.
  induction 1 as [pos left | pos left it p1 l1 items p2 l2 Hit Hrest IH];
    intros n value_ result item pos2 left2 Hn Hval Hres.
  - destruct n as [| n]; [simpl in Hn; lia |].
    simpl. rewrite Hval. simpl. now rewrite (is_OK_false _ Hres).
  - destruct n as [| n]; [simpl in Hn; lia |].
    simpl. rewrite Hit. simpl.
    apply (IH n _ result item pos2 left2); auto. simpl in Hn. lia.
Qed.

Lemma Array_loop_success items pos left pos1 left1 :
  elements_ok T fuel data start_offset pos left items pos1 left1 ->
  forall value_,
    Array.validate_loop T (List.length items) fuel data start_offset
                        orig_pos orig_left value_ pos left
    = Ret (ValidationOK, value_ ++ items, pos1, left1).
Proof.
  induction 1 as [pos left | pos left it p1 l1 items p2 l2 Hit Hrest IH];
    intros value_.
  - simpl. now rewrite app_nil_r.
  - simpl. rewrite Hit. simpl. rewrite IH. now rewrite <- app_assoc.
Qed.

Lemma Array_loop_OK_inv n :
  forall value_ pos left value' pos' left',
    Array.validate_loop T n fuel data start_offset orig_pos orig_left
                        value_ pos left
    = Ret (ValidationOK, value', pos', left') ->
    exists items,
      List.length items = n
      /\ elements_ok T fuel data start_offset pos left items pos' left'
      /\ value' = value_ ++ items.
Proof.
  induction n as [| n IH]; intros value_ pos left value' pos' left' H.
  - simpl in H. inversion H; subst. exists []. repeat split.
    + constructor.
    + now rewrite app_nil_r.
  - simpl in H.
    destruct (Field.validate T fuel data start_offset (Field.init T) pos left)
      as [[[[r item] p1] l1] | h] eqn:Hv; simpl in H; [| discriminate].
    destruct (is_OK r) eqn:Hr;
      [| inversion H; subst r; discriminate].
    apply is_OK_true in Hr. subst r.
    destruct (IH _ _ _ _ _ _ H) as (items & Hlen & Hok & Heq).
    exists (item :: items). repeat split.
    + simpl. now rewrite Hlen.
    + econstructor; eassumption.
    + rewrite Heq. now rewrite <- app_assoc.
Qed.
End ArrayValidate.

(** C3. For a counted [Array<T>] whose 16-bit count [size] can be read at the
    cursor: [validate] validates fresh elements in order, starting right
    after the count. If an element (one of the first [size]) returns a
    result other than [ValidationOK], the array returns that very result,
    with position and remaining budget as before the count was read and with
    no element kept. If all [size] elements validate, it returns
    [ValidationOK] and keeps them. It returns [ValidationOK] only in that
    case. *)
Theorem Array_validate_all_or_nothing (T : Field.t) (fuel : nat)
    (data : Buffer.Instance) (start_offset : Z)
    (value_ : Array.state T) (pos left size : Z) :
  0 <= pos ->
  Buffer.length data < 2 ^ 64 ->
  2 <= left < 2 ^ 64 ->
  Buffer.peekBEInt 2 data pos = Ret size ->
  (forall items pos1 left1 result item pos2 left2,
      elements_ok T fuel data start_offset (pos + 2) (left - 2)
                  items pos1 left1 ->
      (List.length items < Z.to_nat size)%nat ->
      Field.validate T fuel data start_offset (Field.init T) pos1 left1
        = Ret (result, item, pos2, left2) ->
      result <> ValidationOK ->
      Array.validate T fuel data start_offset value_ pos left
      = Ret (result, [], pos, left))
  /\ (forall items pos1 left1,
         elements_ok T fuel data start_offset (pos + 2) (left - 2)
                     items pos1 left1 ->
         List.length items = Z.to_nat size ->
         Array.validate T fuel data start_offset value_ pos left
         = Ret (ValidationOK, value_ ++ items, pos1, left1))
  /\ (forall value' pos' left',
         Array.validate T fuel data start_offset value_ pos left
         = Ret (ValidationOK, value', pos', left') ->
         exists items,
           List.length items = Z.to_nat size
           /\ elements_ok T fuel data start_offset (pos + 2) (left - 2)
                          items pos' left'
           /\ value' = value_ ++ items).
Proof.
  intros Hpos Hlen Hleft Hpeek.
  assert (Hin : pos + 2 <= Buffer.length data).
  { unfold Buffer.peekBEInt in Hpeek.
    destruct (Z.leb_spec (pos + 2) (Buffer.length data)); [lia | discriminate]. }
  assert (Hunfold :
    Array.validate T fuel data start_offset value_ pos left
    = Array.validate_loop T (Z.to_nat size) fuel data start_offset pos left
                          value_ (pos + 2) (left - 2)).
  { unfold Array.validate.
    destruct (Z.ltb_spec left 2); [lia |].
    rewrite (uint64_small (Buffer.length data - pos)) by lia.
    destruct (Z.ltb_spec (Buffer.length data - pos) 2); [lia |].
    rewrite Hpeek. simpl bind. rewrite !uint64_small by lia. reflexivity. }
  rewrite Hunfold. split; [| split].
  - intros items pos1 left1 result item pos2 left2 Hok Hn Hval Hres.
    eapply Array_loop_failure; eassumption.
  - intros items pos1 left1 Hok Hn. rewrite <- Hn.
    now apply Array_loop_success.
  - intros value' pos' left' H. now apply Array_loop_OK_inv in H.
Qed.

Lemma Array_validate_all_or_nothing_witness :
  Array.validate Int16 0 [9; 0; 3; 0; 1; 0] 1 [] 1 8
  = Ret (ValidationNeedMoreData, [], 1, 8).
Proof.
  refine (proj1 (Array_validate_all_or_nothing
                   Int16 0 [9; 0; 3; 0; 1; 0] 1 [] 1 8 3 _ _ _ _)
                [0] 5 4 ValidationNeedMoreData 0 5 4 _ _ _ _).
  - lia.
  - unfold Buffer.length. simpl. lia.
  - lia.
  - reflexivity.
  - apply (elements_ok_cons Int16 0 _ 1 3 6 0 5 4 [] 5 4);
      [reflexivity | apply elements_ok_nil].
  - simpl. lia.
  - reflexivity.
  - discriminate.
Defined.

(** ** [Repeated<T>::validate] *)

Section RepeatedValidate.
Variable T : Field.t.
Variables (fuel : nat) (data : Buffer.Instance) (start_offset : Z).

Lemma Repeated_loop_break items pos left pos1 left1 :
  repeated_ok T fuel data start_offset pos left items pos1 left1 ->
  forall n value_ result item pos2 left2,
    (List.length items < n)%nat ->
    left1 <> 0 ->
    Field.validate T fuel data start_offset (Field.init T) pos1 left1
      = Ret (result, item, pos2, left2) ->
    result <> ValidationOK ->
    Repeated.validate_loop T n fuel data start_offset value_ pos left
    = Ret (value_ ++ items, pos2, left2).
Proof.
  induction 1 as [pos left
                 | pos left it p1 l1 items p2 l2 Hleft Hit Hrest IH];
    intros n value_ result item pos2 left2 Hn Hl1 Hval Hres.
  - destruct n as [| n]; [simpl in Hn; lia |].
    simpl. destruct (Z.eqb_spec left 0); [contradiction |].
    rewrite Hval. simpl. rewrite (is_OK_false _ Hres).
    now rewrite app_nil_r.
  - destruct n as [| n]; [simpl in Hn; lia |].
    simpl. destruct (Z.eqb_spec left 0); [contradiction |].
    rewrite Hit. simpl.
    rewrite (IH n _ result item pos2 left2); auto.
    + now rewrite <- app_assoc.
    + simpl in Hn. lia.
Qed.

Lemma Repeated_loop_returns :
  element_progress T fuel data start_offset ->
  forall n value_ pos left,
    0 <= pos <= Buffer.length data ->
    0 <= left -> (Z.to_nat left <= n)%nat ->
    exists value' pos' left',
      Repeated.validate_loop T n fuel data start_offset value_ pos left
      = Ret (value', pos', left').
Proof.
  intros Hprog. induction n as [| n IH]; intros value_ pos left Hpos H0 Hn.
  - assert (left = 0) by lia. subst left. simpl. eauto.
  - simpl. destruct (Z.eqb_spec left 0); [eauto |].
    destruct (Hprog pos left) as (r & item & p' & l' & Hv & Hdec);
      [lia | lia |].
    rewrite Hv. simpl. destruct (is_OK r) eqn:Hr; [| eauto].
    apply is_OK_true in Hr. specialize (Hdec Hr).
    apply IH; lia.
Qed.
End RepeatedValidate.

Lemma Int_validate_progress (size : Z) (fuel : nat) (data : Buffer.Instance)
    (start_offset : Z) :
  1 <= size -> Buffer.length data < 2 ^ 64 ->
  element_progress (Int.field size) fuel data start_offset.
Proof.
  intros Hsize Hlen pos left Hpos Hleft. simpl. unfold Int.validate.
  destruct (Z.ltb_spec left size).
  - do 4 eexists. split; [reflexivity | discriminate].
  - rewrite (uint64_small (Buffer.length data - pos)) by lia.
    destruct (Z.ltb_spec (Buffer.length data - pos) size).
    + do 4 eexists. split; [reflexivity | discriminate].
    + do 4 eexists. split; [reflexivity |]. intros _.
      rewrite (uint64_small (pos + size)) by lia. unfold uint64.
      assert (0 <= (left - size) mod 2 ^ 64 <= left - size).
      { split; [apply Z.mod_pos_bound; lia | apply Z.mod_le; lia]. }
      lia.
Qed.

(** C4 (as amended). For a [Repeated<T>] and a cursor that lies inside the
    buffer: [validate] returns [ValidationNeedMoreData], before any element
    is attempted, when the buffer holds fewer than [left] bytes at the
    cursor; in every other case a call that returns returns
    [ValidationOK], whatever made the loop stop; and the call does return
    when every attempt on an element returns and every validated element
    takes at least one byte of the budget. *)
Theorem Repeated_validate_result (T : Field.t) (fuel : nat)
    (data : Buffer.Instance) (start_offset : Z)
    (value_ : Repeated.state T) (pos left : Z) :
  Buffer.length data < 2 ^ 64 ->
  0 <= pos <= Buffer.length data ->
  0 <= left < 2 ^ 64 ->
  (Buffer.available data pos < left ->
   Repeated.validate T fuel data start_offset value_ pos left
   = Ret (ValidationNeedMoreData, value_, pos, left))
  /\ (left <= Buffer.available data pos ->
      forall result value' pos' left',
        Repeated.validate T fuel data start_offset value_ pos left
        = Ret (result, value', pos', left') ->
        result = ValidationOK)
  /\ (left <= Buffer.available data pos ->
      element_progress T fuel data start_offset ->
      (Z.to_nat left <= fuel)%nat ->
      exists value' pos' left',
        Repeated.validate T fuel data start_offset value_ pos left
        = Ret (ValidationOK, value', pos', left')).
Proof.
  intros Hlen Hpos Hleft.
  rewrite (available_in_range data pos Hpos).
  unfold Repeated.validate.
  rewrite (uint64_small (Buffer.length data - pos)) by lia.
  split; [| split].
  - intros H. destruct (Z.ltb_spec (Buffer.length data - pos) left);
      [reflexivity | lia].
  - intros H result value' pos' left'.
    destruct (Z.ltb_spec (Buffer.length data - pos) left); [lia |].
    destruct (Repeated.validate_loop T fuel fuel data start_offset value_
                                     pos left) as [[[v p] l] | h];
      simpl; intros E; [now inversion E | discriminate].
  - intros H Hprog Hfuel.
    destruct (Z.ltb_spec (Buffer.length data - pos) left); [lia |].
    destruct (Repeated_loop_returns T fuel data start_offset Hprog
                fuel value_ pos left) as (v & p & l & E); [lia | lia | lia |].
    rewrite E. simpl. eauto.
Qed.

Lemma Repeated_validate_result_witness :
  Repeated.validate Int8 2 [1; 2] 0 [] 1 2
  = Ret (ValidationNeedMoreData, [], 1, 2)
  /\ (exists value' pos' left',
         Repeated.validate Int16 3 [1; 2; 3] 0 [] 0 3
         = Ret (ValidationOK, value', pos', left')).
Proof.
  split.
  - refine (proj1 (Repeated_validate_result Int8 2 [1; 2] 0 [] 1 2 _ _ _) _);
      unfold Buffer.length, Buffer.available; simpl; lia.
  - refine (proj2 (proj2 (Repeated_validate_result
                            Int16 3 [1; 2; 3] 0 [] 0 3 _ _ _)) _ _ _);
      try (unfold Buffer.length, Buffer.available; simpl; lia).
    apply Int_validate_progress; [lia | unfold Buffer.length; simpl; lia].
Defined.

(** A [Repeated<Sequence<>>] with budget left never leaves its loop: the
    element validates without taking a byte. *)
Lemma Repeated_of_empty_sequence_loops (fuel : nat) :
  Repeated.validate Sequence.empty fuel [1] 0 [] 0 1 = Stop OutOfFuel.
Proof.
  unfold Repeated.validate.
  change (uint64 (Buffer.length [1] - 0) <? 1) with false. cbv iota.
  assert (H : forall n value_,
             Repeated.validate_loop Sequence.empty n fuel [1] 0 value_ 0 1
             = Stop OutOfFuel).
  { induction n as [| n IH]; intros value_; [reflexivity |].
    simpl. apply IH. }
  now rewrite H.
Qed.

(** C4, counterexample. With the cursor past the end of the buffer the
    unsigned difference [data.length() - pos] wraps around, the check before
    the loop passes and the result is [ValidationOK]: a [Repeated<Int8>] at
    position 1 of the empty buffer, with budget 1, although no byte of the
    budget is available there. And a [Repeated<Sequence<>>] on a one-byte
    buffer with budget 1 passes the check and then returns nothing at all,
    however much fuel it is given. *)
Lemma Repeated_validate_past_end_or_no_progress :
  (Buffer.available [] 1 < 1
   /\ Repeated.validate Int8 1 [] 0 [] 1 1 = Ret (ValidationOK, [0], 2, 0)
   /\ Repeated.validate Int8 1 [] 0 [] 1 1
      <> Ret (ValidationNeedMoreData, [], 1, 1))
  /\ (1 <= Buffer.available [1] 0
      /\ forall fuel,
          Repeated.validate Sequence.empty fuel [1] 0 [] 0 1
          = Stop OutOfFuel).
Proof.
  split.
  - split; [vm_compute; reflexivity |].
    split; [reflexivity | discriminate].
  - split; [vm_compute; discriminate |].
    apply Repeated_of_empty_sequence_loops.
Qed.

(** When the loop of [Repeated<T>::validate] stops because an element
    returned a result other than [ValidationOK], the elements validated
    before it stay in [value_] (after those already there), the call
    reports [ValidationOK], and [write] emits them. *)
Lemma Repeated_validate_keeps_partial (T : Field.t) (fuel : nat)
    (data : Buffer.Instance) (start_offset : Z)
    (value_ items : Repeated.state T) (item : Field.state T)
    (pos left pos1 left1 pos2 left2 : Z) (result : ValidationResult) :
  left <= uint64 (Buffer.length data - pos) ->
  repeated_ok T fuel data start_offset pos left items pos1 left1 ->
  left1 <> 0 ->
  Field.validate T fuel data start_offset (Field.init T) pos1 left1
    = Ret (result, item, pos2, left2) ->
  result <> ValidationOK ->
  (List.length items < fuel)%nat ->
  Repeated.validate T fuel data start_offset value_ pos left
  = Ret (ValidationOK, value_ ++ items, pos2, left2)
  /\ Repeated.write T (value_ ++ items)
     = Repeated.write T value_ ++ concat (map (Field.write T) items).
Proof.
  intros Hcheck Hok Hl1 Hval Hres Hfuel. split.
  - unfold Repeated.validate.
    destruct (Z.ltb_spec (uint64 (Buffer.length data - pos)) left); [lia |].
    rewrite (Repeated_loop_break T fuel data start_offset items pos left
               pos1 left1 Hok fuel value_ result item pos2 left2);
      auto.
  - unfold Repeated.write. now rewrite map_app, concat_app.
Qed.

(** ** [MessageImpl] and [TypedMessage] *)

(** C8 (as amended). For a message with at least one field: [read] on an
    instance whose [validation_result_] is not [ValidationOK] (the initial
    value is [ValidationNeedMoreData], and [validate] stores every result it
    returns) stops at the assertion; after a [validate] that returned
    [ValidationOK] the assertion holds and [read] is the read of the
    sequence at position 0. The zero-field message has no assertion: its
    [read] returns true in any state. *)
Theorem MessageImpl_read_assertion (F : Field.t) (Types : list Field.t) :
  Message.validation_result_ (Message.init (F :: Types))
  = ValidationNeedMoreData
  /\ (forall fuel data start_pos length m result m',
         MessageImpl.validate (F :: Types) fuel data start_pos length m
         = Ret (result, m') ->
         Message.validation_result_ m' = result)
  /\ (forall data length m,
         Message.validation_result_ m <> ValidationOK ->
         MessageImpl.read (F :: Types) data length m = Stop AssertionFailure)
  /\ (forall data length m,
         Message.validation_result_ m = ValidationOK ->
         MessageImpl.read (F :: Types) data length m
         = '(result, fields', _, _) <-
             Field.read (Sequence.field (F :: Types)) data
                        (Message.fields m) 0 length ;;
           Ret (result, Message.Make ValidationOK fields'))
  /\ (forall data length (m : Message.t []),
         MessageImpl.read [] data length m = Ret (true, m)).
Proof.
  split; [reflexivity |]. split; [| split; [| split]].
  - intros fuel data start_pos length m result m'.
    unfold MessageImpl.validate. simpl MessageImpl.no_fields. cbv iota.
    destruct (Field.validate (Sequence.field (F :: Types)) fuel data start_pos
                             (Message.fields m) start_pos length)
      as [[[[r s] p] l] | h]; simpl; intros E; [| discriminate].
    inversion E; subst. reflexivity.
  - intros data length m Hm. unfold MessageImpl.read.
    simpl MessageImpl.no_fields. cbv iota.
    rewrite (is_OK_false _ Hm). reflexivity.
  - intros data length m Hm. unfold MessageImpl.read.
    simpl MessageImpl.no_fields. cbv iota.
    rewrite Hm. reflexivity.
  - reflexivity.
Qed.

(** C8, counterexample. The zero-field message was never validated, its
    [validation_result_] is [ValidationNeedMoreData], and [read] returns
    true: there is no assertion on this path. *)
Lemma MessageImpl_empty_read_without_validate :
  Message.validation_result_ (Message.init []) <> ValidationOK
  /\ MessageImpl.read [] [] 0 (Message.init [])
     = Ret (true, Message.init [])
  /\ MessageImpl.read [] [] 0 (Message.init []) <> Stop AssertionFailure.
Proof. repeat split; discriminate. Qed.

(** C9. A message without identifier, with or without fields, reports
    [isWriteable() = false] and its single-argument [write] stops at the
    assertion; a typed message reports [isWriteable() = true]. *)
Theorem isWriteable_by_class (Types : list Field.t) (m : Message.t Types) :
  MessageImpl.isWriteable Types m = false
  /\ MessageImpl.write Types m = Stop AssertionFailure
  /\ TypedMessage.isWriteable Types m = true.
Proof. repeat split. Qed.

(** ** [getSize] and [write] *)

(** The frame written for a typed message: the identifier byte, the four
    bytes of [getSize() + 4], the bytes written by the sequence; for the
    zero-field message the identifier and the four bytes of 4. *)
Lemma TypedMessage_write_layout (Identifier : Z) (F : Field.t)
    (Types : list Field.t) (m : Message.t (F :: Types)) (m0 : Message.t []) :
  TypedMessage.write Identifier (F :: Types) m
  = Ret ([Identifier mod 256]
         ++ Buffer.writeBEInt 4
              (Field.getSize (Sequence.field (F :: Types)) (Message.fields m)
               + 4)
         ++ Field.write (Sequence.field (F :: Types)) (Message.fields m))
  /\ TypedMessage.write Identifier [] m0
     = Ret [Identifier mod 256; 0; 0; 0; 4].
Proof. split; reflexivity. Qed.

Lemma encodeBE_length (n : nat) (v : Z) :
  List.length (Buffer.encodeBE n v) = n.
Proof.
  revert v. induction n as [| n IH]; intros v; [reflexivity |].
  simpl. rewrite length_app, IH. simpl. lia.
Qed.

Lemma int32_small (z : Z) : - 2 ^ 31 <= z < 2 ^ 31 -> int32 z = z.
Proof. intros H. unfold int32. rewrite Z.mod_small; lia. Qed.

Lemma uint16_small (z : Z) : 0 <= z < 2 ^ 16 -> uint16 z = z.
Proof. intros H. unfold uint16. now apply Z.mod_small. Qed.

(** [Sequence::getSize] is the sum of the sizes of its fields, as an
    [int32_t], and [Sequence::write] writes the fields one after the
    other. *)
Lemma Sequence_getSize_additive (F R : Field.t)
    (s : Field.state (Sequence.cons F R)) :
  Field.getSize Sequence.empty tt = 0
  /\ Field.write Sequence.empty tt = []
  /\ Field.getSize (Sequence.cons F R) s
     = int32 (Field.getSize F (fst s) + Field.getSize R (snd s))
  /\ Field.write (Sequence.cons F R) s
     = Field.write F (fst s) ++ Field.write R (snd s).
Proof. repeat split. Qed.

(** As long as the bytes of the elements stay below 65536 in total, the
    16-bit sum in [Array<T>::getSize] is exact. *)
Lemma Array_getSize_exact (T : Field.t) (value_ : Array.state T) :
  Forall (fun elem =>
            Field.getSize T elem
            = Z.of_nat (List.length (Field.write T elem))) value_ ->
  Z.of_nat (List.length (concat (map (Field.write T) value_))) < 2 ^ 16 ->
  Array.getSize T value_ = Z.of_nat (List.length (Array.write T value_)).
Proof.
  intros Hexact Htotal. unfold Array.getSize, Array.write.
  assert (Hsum : forall acc,
             0 <= acc ->
             acc + Z.of_nat (List.length
                               (concat (map (Field.write T) value_)))
             < 2 ^ 16 ->
             fold_left (fun size elem => uint16 (size + Field.getSize T elem))
                       value_ acc
             = acc + Z.of_nat (List.length
                                 (concat (map (Field.write T) value_)))).
  { clear Htotal. induction Hexact as [| elem rest He Hrest IH];
      intros acc Hacc Hlt; simpl in *.
    - lia.
    - rewrite length_app in Hlt. rewrite length_app, He.
      rewrite uint16_small by lia. rewrite IH; lia. }
  rewrite Hsum by lia.
  rewrite length_app. unfold Buffer.writeBEInt. rewrite encodeBE_length.
  rewrite int32_small; lia.
Qed.

(** C7, failing input. [Array<T>::getSize] adds the element sizes in a
    [uint16_t]: for a [Sequence<Array<Int32>>] whose array holds 16384
    elements the sum 65536 wraps to 0, [getSize()] is 2, and [write] emits
    65538 bytes. In the same way, for a [Sequence<Array<VarByteN>>] whose
    array holds one value of 65536 bytes, [getSize()] is 6 and [write] emits
    65542 bytes. *)
Theorem Sequence_getSize_wraps_at_65536 :
  (Field.getSize (Sequence.field [Array.field Int32])
                 (repeat 0 (Z.to_nat 16384), tt) = 2
   /\ Z.of_nat (List.length
                  (Field.write (Sequence.field [Array.field Int32])
                               (repeat 0 (Z.to_nat 16384), tt))) = 65538)
  /\ (forall validate read,
         Field.getSize
           (Sequence.field [Array.field (VarByteN.field validate read)])
           ([Some (repeat 0 (Z.to_nat 65536))], tt) = 6
         /\ Z.of_nat
              (List.length
                 (Field.write
                    (Sequence.field
                       [Array.field (VarByteN.field validate read)])
                    ([Some (repeat 0 (Z.to_nat 65536))], tt))) = 65542).
Proof.
  split; [split; vm_compute; reflexivity |].
  intros validate read. split; vm_compute; reflexivity.
Qed.

(** C6, failing input. The typed message with identifier ['D'] (68) over an
    [Array<VarByteN>] that holds one value of 65536 bytes writes the length
    field 10, followed by a payload of 65542 bytes: the length field is not
    the payload size plus 4, which is 65546. *)
Theorem TypedMessage_write_length_field_wraps :
  forall validate read,
    TypedMessage.write 68 [Array.field (VarByteN.field validate read)]
      (@Message.Make [Array.field (VarByteN.field validate read)]
                     ValidationOK
                     ([Some (repeat 0 (Z.to_nat 65536))], tt))
    = Ret ([68] ++ [0; 0; 0; 10]
           ++ Field.write
                (Sequence.field [Array.field (VarByteN.field validate read)])
                ([Some (repeat 0 (Z.to_nat 65536))], tt))
    /\ Z.of_nat
         (List.length
            (Field.write
               (Sequence.field [Array.field (VarByteN.field validate read)])
               ([Some (repeat 0 (Z.to_nat 65536))], tt))) = 65542
    /\ Buffer.writeBEInt 4 (65542 + 4) = [0; 1; 0; 10].
Proof. intros validate read. repeat split; vm_compute; reflexivity. Qed.

(** ** Validate, read, write *)

Lemma decodeBE_nonneg (bs : list Z) :
  Forall (fun b => 0 <= b < 256) bs -> 0 <= Buffer.decodeBE bs.
Proof.
  induction bs as [| b bs IH] using rev_ind; intros H.
  - unfold Buffer.decodeBE. simpl. lia.
  - apply Forall_app in H. destruct H as [Hbs Hb].
    inversion Hb; subst. rewrite decodeBE_snoc. specialize (IH Hbs). lia.
Qed.

Lemma peekBEInt_inv (size : Z) (data : Buffer.Instance) (pos v : Z) :
  Forall (fun b => 0 <= b < 256) data ->
  Buffer.peekBEInt size data pos = Ret v ->
  pos + size <= Buffer.length data /\ 0 <= v.
Proof.
  intros Hbytes. unfold Buffer.peekBEInt.
  destruct (Z.leb_spec (pos + size) (Buffer.length data)); [| discriminate].
  intros E. inversion E. split; [assumption |].
  now apply decodeBE_nonneg, slice_bytes.
Qed.

(** Case analysis on the first call of a sequence of calls that returned. *)
Ltac run_inv H r s p l E :=
  match type of H with
  | context [bind ?c _] =>
      destruct c as [[[[r s] p] l] | ?] eqn:E; simpl in H; [| discriminate]
  end.

Lemma Int_restores_cursor (size : Z) : restores_cursor (Int.field size).
Proof.
  intros fuel data so s pos left r s' pos' left'. simpl. unfold Int.validate.
  destruct (left <? size); [intros E; inversion E; auto |].
  destruct (uint64 (Buffer.length data - pos) <? size);
    intros E; inversion E; subst; [auto | congruence].
Qed.

Lemma Int_roundtrip (size : Z) :
  size = 1 \/ size = 2 \/ size = 4 -> roundtrip (Int.field size).
Proof.
  intros Hsize fuel data so pos left s' pos' left' [Hbytes Hlen] Hso Hpos Hleft.
  simpl. unfold Int.validate, Int.read, Int.write.
  destruct (Z.ltb_spec left size); [discriminate |].
  rewrite (uint64_small (Buffer.length data - pos)) by lia.
  destruct (Z.ltb_spec (Buffer.length data - pos) size); [discriminate |].
  rewrite !uint64_small by lia.
  intros E. inversion E; subst s' pos' left'. clear E.
  repeat split; try lia.
  rewrite peekBEInt_drain by lia.
  destruct (Buffer.peekBEInt size data pos) as [v | h] eqn:Hpeek.
  - exists v. cbn [bind]. split.
    + do 3 f_equal. lia.
    + eapply writeBEInt_peekBEInt; eauto; lia.
  - unfold Buffer.peekBEInt in Hpeek.
    destruct (Z.leb_spec (pos + size) (Buffer.length data));
      [discriminate | lia].
Qed.

Section ElementChains.
Variable T : Field.t.
Hypothesis T_roundtrip : roundtrip T.
Variables (fuel : nat) (data : Buffer.Instance) (start_offset : Z).
Hypothesis data_ok : Buffer.well_formed data.
Hypothesis start_ok : 0 <= start_offset.

(** The elements validated one after the other are read back one after
    the other, by the loop of [Array<T>::read] and by that of
    [Repeated<T>::read], and written as the bytes they were validated
    on. *)
Lemma elements_roundtrip pos left items pos' left' :
  elements_ok T fuel data start_offset pos left items pos' left' ->
  start_offset <= pos <= Buffer.length data ->
  0 <= left < 2 ^ 64 ->
  pos <= pos' <= Buffer.length data
  /\ 0 <= left'
  /\ left' = left - (pos' - pos)
  /\ exists items'',
       List.length items'' = List.length items
       /\ Array.read_loop T (List.length items)
                          (Buffer.drain start_offset data) items
                          (pos - start_offset) left
          = Ret (items'', pos' - start_offset, left')
       /\ Repeated.read_loop T (Buffer.drain start_offset data) items
                             (pos - start_offset) left
          = Ret (true, items'', pos' - start_offset, left')
       /\ concat (map (Field.write T) items'')
          = Buffer.slice data pos pos'.
Proof.
  induction 1 as [pos left | pos left it p1 l1 items p2 l2 Hit Hrest IH];
    intros Hpos Hleft.
  - repeat split; try lia. exists []. repeat split.
    now rewrite slice_empty.
  - destruct (T_roundtrip fuel data start_offset pos left it p1 l1)
      as (Hp1 & Hl1 & Hl1' & it'' & Hread & Hwrite);
      auto; try lia.
    destruct IH as (Hp2 & Hl2 & Hl2' & items'' & Hn & HA & HR & Hw);
      try lia.
    repeat split; try lia.
    exists (it'' :: items''). repeat split.
    + simpl. now rewrite Hn.
    + simpl. rewrite Hread. cbn [bind]. rewrite HA. reflexivity.
    + simpl. rewrite Hread. cbn [bind]. rewrite HR. reflexivity.
    + simpl. rewrite Hwrite, Hw. apply slice_app; lia.
Qed.
End ElementChains.

Lemma repeated_ok_elements_ok (T : Field.t) (fuel : nat)
    (data : Buffer.Instance) (start_offset : Z) pos left items pos' left' :
  repeated_ok T fuel data start_offset pos left items pos' left' ->
  elements_ok T fuel data start_offset pos left items pos' left'.
Proof. induction 1; econstructor; eauto. Qed.

Lemma Array_loop_restores (T : Field.t) (n : nat) :
  forall fuel data so orig_pos orig_left value_ pos left r v pos' left',
    Array.validate_loop T n fuel data so orig_pos orig_left value_ pos left
    = Ret (r, v, pos', left') ->
    r <> ValidationOK ->
    pos' = orig_pos /\ left' = orig_left.
Proof.
  induction n as [| n IH];
    intros fuel data so op ol value_ pos left r v pos' left' H Hr.
  - simpl in H. inversion H; subst. congruence.
  - simpl in H. run_inv H r1 item p1 l1 E1.
    destruct (is_OK r1); [eapply IH; eauto |].
    inversion H; subst. auto.
Qed.

Lemma Array_restores_cursor (T : Field.t) : restores_cursor (Array.field T).
Proof.
  intros fuel data so s pos left r s' pos' left'. simpl. unfold Array.validate.
  destruct (left <? 2); [intros E; inversion E; auto |].
  destruct (uint64 (Buffer.length data - pos) <? 2);
    [intros E; inversion E; auto |].
  destruct (Buffer.peekBEInt 2 data pos) as [size | h]; simpl;
    [| discriminate].
  apply Array_loop_restores.
Qed.

Lemma Array_roundtrip (T : Field.t) :
  roundtrip T -> roundtrip (Array.field T).
Proof.
  intros HT fuel data so pos left s' pos' left' Hdata Hso Hpos Hleft.
  pose proof Hdata as [Hbytes Hlen].
  simpl. unfold Array.validate, Array.read, Array.write.
  destruct (Z.ltb_spec left 2); [discriminate |].
  rewrite (uint64_small (Buffer.length data - pos)) by lia.
  destruct (Z.ltb_spec (Buffer.length data - pos) 2); [discriminate |].
  destruct (Buffer.peekBEInt 2 data pos) as [size | h] eqn:Hpeek;
    cbn [bind]; [| discriminate].
  rewrite !uint64_small by lia. intros Hloop.
  apply Array_loop_OK_inv in Hloop.
  destruct Hloop as (items & Hn & Hok & ->).
  change ([] ++ items) with items.
  destruct (elements_roundtrip T HT fuel data so Hdata (proj1 Hso)
              (pos + 2) (left - 2) items pos' left' Hok)
    as (Hp & Hl & Hl' & items'' & Hn'' & HA & _ & Hw); try lia.
  repeat split; try lia.
  exists items''. rewrite peekBEInt_drain, Hpeek by lia. cbn [bind].
  replace (pos - so + 2) with (pos + 2 - so) by lia.
  rewrite <- Hn, HA. cbn [bind]. split; [reflexivity |].
  rewrite Hw, Hn'', Hn.
  destruct (peekBEInt_inv 2 data pos size Hbytes Hpeek) as [_ Hsize].
  rewrite Z2Nat.id by assumption.
  rewrite (writeBEInt_peekBEInt 2 data pos size) by (auto; lia).
  apply slice_app; lia.
Qed.

Lemma Repeated_loop_inv (T : Field.t) (n : nat) :
  forall fuel data so value_ pos left value' pos' left',
    Repeated.validate_loop T n fuel data so value_ pos left
    = Ret (value', pos', left') ->
    exists items pos1 left1,
      value' = value_ ++ items
      /\ repeated_ok T fuel data so pos left items pos1 left1
      /\ ((left1 = 0 /\ pos' = pos1 /\ left' = left1)
          \/ (left1 <> 0
              /\ exists result item,
                  Field.validate T fuel data so (Field.init T) pos1 left1
                    = Ret (result, item, pos', left')
                  /\ result <> ValidationOK)).
Proof.
  induction n as [| n IH];
    intros fuel data so value_ pos left value' pos' left' H.
  - simpl in H. destruct (Z.eqb_spec left 0); [| discriminate].
    inversion H; subst. exists [], pos', 0. repeat split.
    + now rewrite app_nil_r.
    + constructor.
    + now left.
  - simpl in H. destruct (Z.eqb_spec left 0) as [Hz | Hnz].
    + inversion H; subst. exists [], pos', 0. repeat split.
      * now rewrite app_nil_r.
      * constructor.
      * now left.
    + run_inv H r item q1 k1 E1. destruct (is_OK r) eqn:Hv.
      * apply is_OK_true in Hv. subst r.
        destruct (IH _ _ _ _ _ _ _ _ _ H)
          as (items & p1 & l1 & -> & Hok & Hend).
        exists (item :: items), p1, l1. repeat split.
        -- now rewrite <- app_assoc.
        -- econstructor; eauto.
        -- assumption.
      * inversion H; subst. exists [], pos, left. repeat split.
        -- now rewrite app_nil_r.
        -- constructor.
        -- right. split; [assumption |]. exists r, item.
           split; [assumption |]. intros ->. discriminate.
Qed.

Lemma Repeated_restores_cursor (T : Field.t) :
  restores_cursor (Repeated.field T).
Proof.
  intros fuel data so s pos left r s' pos' left'. simpl.
  unfold Repeated.validate.
  destruct (uint64 (Buffer.length data - pos) <? left);
    [intros E; inversion E; auto |].
  destruct (Repeated.validate_loop T fuel fuel data so s pos left)
    as [[[v p] l] | h]; simpl; intros E; [| discriminate].
  inversion E; subst. congruence.
Qed.

Lemma Repeated_roundtrip (T : Field.t) :
  restores_cursor T -> roundtrip T -> roundtrip (Repeated.field T).
Proof.
  intros Hrestore HT fuel data so pos left s' pos' left' Hdata Hso Hpos Hleft.
  simpl. unfold Repeated.validate, Repeated.read, Repeated.write.
  destruct (uint64 (Buffer.length data - pos) <? left); [discriminate |].
  destruct (Repeated.validate_loop T fuel fuel data so [] pos left)
    as [[[v p] l] | h] eqn:Hloop; cbn [bind]; intros E; [| discriminate].
  inversion E; subst v p l. clear E.
  apply Repeated_loop_inv in Hloop.
  destruct Hloop as (items & p1 & l1 & -> & Hok & Hend).
  change ([] ++ items) with items.
  assert (pos' = p1 /\ left' = l1) as [-> ->].
  { destruct Hend as [(_ & -> & ->) | (_ & r & item & Hv & Hr)]; [auto |].
    eapply Hrestore; eauto. }
  apply repeated_ok_elements_ok in Hok.
  destruct (elements_roundtrip T HT fuel data so Hdata (proj1 Hso)
              pos left items p1 l1 Hok)
    as (Hp & Hl & Hl' & items'' & _ & _ & HR & Hw); try lia.
  repeat split; try lia.
  exists items''. split; assumption.
Qed.

Lemma Sequence_empty_roundtrip : roundtrip Sequence.empty.
Proof.
  intros fuel data so pos left s' pos' left' Hdata Hso Hpos Hleft. simpl.
  intros E. inversion E; subst. repeat split; try lia.
  exists tt. split; [reflexivity |]. now rewrite slice_empty.
Qed.

Lemma Sequence_empty_restores_cursor : restores_cursor Sequence.empty.
Proof.
  intros fuel data so s pos left r s' pos' left'. simpl.
  intros E. inversion E; subst. auto.
Qed.

Lemma Sequence_cons_restores_cursor (F R : Field.t) :
  restores_cursor (Sequence.cons F R).
Proof.
  intros fuel data so s pos left r s' pos' left'. simpl.
  unfold Sequence.validate. intros H Hr.
  run_inv H r1 f' p1 l1 E1. destruct (is_OK r1).
  - run_inv H r2 r' p2 l2 E2.
    destruct (is_OK r2); inversion H; subst; [congruence | auto].
  - inversion H; subst. auto.
Qed.

Lemma Sequence_cons_roundtrip (F R : Field.t) :
  roundtrip F -> roundtrip R -> roundtrip (Sequence.cons F R).
Proof.
  intros HF HR fuel data so pos left s' pos' left' Hdata Hso Hpos Hleft.
  simpl. unfold Sequence.validate, Sequence.read, Sequence.write.
  cbn [fst snd]. intros H.
  run_inv H r1 f' p1 l1 E1.
  destruct (is_OK r1) eqn:Hv; [| inversion H; subst; discriminate].
  apply is_OK_true in Hv. subst r1.
  run_inv H r2 r' p2 l2 E2.
  destruct (is_OK r2) eqn:Hv; [| inversion H; subst; discriminate].
  apply is_OK_true in Hv. subst r2.
  inversion H; subst. clear H.
  destruct (HF fuel data so pos left _ _ _ Hdata Hso Hpos Hleft E1)
    as (Hp1 & Hl1 & Hl1' & f'' & Hread1 & Hwrite1).
  destruct (HR fuel data so p1 l1 _ _ _ Hdata
               ltac:(lia) ltac:(lia) ltac:(lia) E2)
    as (Hp2 & Hl2 & Hl2' & r'' & Hread2 & Hwrite2).
  repeat split; try lia.
  exists (f'', r''). cbn [fst snd].
  rewrite Hread1. cbn [bind]. rewrite Hread2. cbn [bind].
  split; [reflexivity |].
  rewrite Hwrite1, Hwrite2. apply slice_app; lia.
Qed.

Lemma header_field_roundtrip (F : Field.t) :
  header_field F -> restores_cursor F /\ roundtrip F.
Proof.
  induction 1 as [size Hsize | T HT [IHr IHt] | T HT [IHr IHt]
                 | | F R HF [IHFr IHFt] HR [IHRr IHRt]].
  - split; [apply Int_restores_cursor | now apply Int_roundtrip].
  - split; [apply Array_restores_cursor | now apply Array_roundtrip].
  - split; [apply Repeated_restores_cursor | now apply Repeated_roundtrip].
  - split; [apply Sequence_empty_restores_cursor
           | apply Sequence_empty_roundtrip].
  - split; [apply Sequence_cons_restores_cursor
           | now apply Sequence_cons_roundtrip].
Qed.

Lemma Sequence_field_header (Types : list Field.t) :
  Forall header_field Types -> header_field (Sequence.field Types).
Proof.
  induction 1 as [| F Types HF HTypes IH]; simpl.
  - apply header_Sequence_empty.
  - now apply header_Sequence_cons.
Qed.

(** C2 (as amended). For a freshly constructed message built from the
    field classes whose [validate] and [read] the header defines (integers,
    arrays, repetitions and sequences, nested in any way), a buffer of bytes
    and a start position inside it: when [validate] returns
    [ValidationOK], [read] with the same length on the buffer drained of the
    bytes before the start position (the same buffer when the start position
    is 0) returns true, and [write] of the fields read gives exactly the
    bytes that [validate] went over: those from the start position to the
    final position of its cursor. *)
Theorem MessageImpl_validate_read_write (Types : list Field.t) (fuel : nat)
    (data : Buffer.Instance) (start_pos length : Z) (m' : Message.t Types) :
  Forall header_field Types ->
  Buffer.well_formed data ->
  0 <= start_pos <= Buffer.length data ->
  0 <= length < 2 ^ 64 ->
  MessageImpl.validate Types fuel data start_pos length (Message.init Types)
    = Ret (ValidationOK, m') ->
  exists m'' pos' left',
    Field.validate (Sequence.field Types) fuel data start_pos
                   (Field.init (Sequence.field Types)) start_pos length
      = Ret (ValidationOK, Message.fields m', pos', left')
    /\ start_pos <= pos' <= Buffer.length data
    /\ 0 <= left'
    /\ left' = length - (pos' - start_pos)
    /\ MessageImpl.read Types (Buffer.drain start_pos data) length m'
       = Ret (true, m'')
    /\ Field.write (Sequence.field Types) (Message.fields m'')
       = Buffer.slice data start_pos pos'.
Proof.
  intros HTypes Hdata Hstart Hlength.
  destruct Types as [| F Types].
  - simpl. intros E. inversion E; subst m'. clear E.
    exists (Message.init []), start_pos, length.
    repeat split; try lia. simpl. now rewrite slice_empty.
  - destruct (header_field_roundtrip _ (Sequence_field_header _ HTypes))
      as [_ Hlaw].
    unfold MessageImpl.validate, MessageImpl.read.
    simpl MessageImpl.no_fields. cbv iota. intros H.
    run_inv H r fields' pos' left' E.
    inversion H; subst r m'. clear H. cbn [Message.fields].
    destruct (Hlaw fuel data start_pos start_pos length fields' pos' left'
                Hdata ltac:(lia) ltac:(lia) Hlength E)
      as (Hp & Hl & Hl' & fields'' & Hread & Hwrite).
    rewrite Z.sub_diag in Hread.
    exists (Message.Make ValidationOK fields''), pos', left'.
    repeat split; try lia; try assumption.
    cbn [Message.validation_result_ is_OK ASSERT bind].
    rewrite Hread. reflexivity.
Qed.

(** A message of an [Int16] and an [Array<Int8>] validated at offset 1 of a
    seven-byte buffer and read from the drained buffer. *)
Lemma MessageImpl_validate_read_write_witness :
  exists m'' pos' left',
    Field.validate (Sequence.field [Int16; Array.field Int8]) 0
                   [9; 0; 7; 0; 2; 5; 6] 1
                   (Field.init (Sequence.field [Int16; Array.field Int8]))
                   1 6
      = Ret (ValidationOK, (0, ([0; 0], tt)), pos', left')
    /\ 1 <= pos' <= Buffer.length [9; 0; 7; 0; 2; 5; 6]
    /\ 0 <= left'
    /\ left' = 6 - (pos' - 1)
    /\ MessageImpl.read [Int16; Array.field Int8]
                        (Buffer.drain 1 [9; 0; 7; 0; 2; 5; 6]) 6
                        (@Message.Make [Int16; Array.field Int8]
                                       ValidationOK (0, ([0; 0], tt)))
       = Ret (true, m'')
    /\ Field.write (Sequence.field [Int16; Array.field Int8])
                   (Message.fields m'')
       = Buffer.slice [9; 0; 7; 0; 2; 5; 6] 1 pos'.
Proof.
  apply (MessageImpl_validate_read_write
           [Int16; Array.field Int8] 0 [9; 0; 7; 0; 2; 5; 6] 1 6
           (@Message.Make [Int16; Array.field Int8]
                          ValidationOK (0, ([0; 0], tt)))).
  - apply Forall_cons; [apply header_Int; lia |].
    apply Forall_cons; [apply header_Array, header_Int; lia |].
    apply Forall_nil.
  - split; [repeat constructor; lia | unfold Buffer.length; simpl; lia].
  - unfold Buffer.length. simpl. lia.
  - lia.
  - reflexivity.
Defined.

(** C2, counterexample. [read] always starts at position 0 of the buffer it
    is given. A message of one [Int8] validated at start position 1 of the
    buffer [1; 2] went over the byte 2; [read] with the same buffer and
    length returns true with the value 1, and [write] gives the byte 1.

    And [validate] adds to what an earlier call left in the message: a
    message of an [Array<Int8>] and an [Int8] that was first validated on
    the three bytes [0; 1; 7] ([ValidationNeedMoreData]) and then on
    [0; 1; 7; 9] ([ValidationOK]) holds two elements in its array; [read]
    returns true and [write] gives [0; 2; 7; 0; 9]. *)
Lemma MessageImpl_roundtrip_fails :
  (MessageImpl.validate [Int8] 0 [1; 2] 1 1 (Message.init [Int8])
   = Ret (ValidationOK, @Message.Make [Int8] ValidationOK (0, tt))
   /\ MessageImpl.read [Int8] [1; 2] 1
                       (@Message.Make [Int8] ValidationOK (0, tt))
      = Ret (true, @Message.Make [Int8] ValidationOK (1, tt))
   /\ Field.write (Sequence.field [Int8]) (1, tt) = [1]
   /\ Buffer.slice [1; 2] 1 (1 + 1) = [2])
  /\ (MessageImpl.validate [Array.field Int8; Int8] 0 [0; 1; 7] 0 4
                           (Message.init [Array.field Int8; Int8])
      = Ret (ValidationNeedMoreData,
             @Message.Make [Array.field Int8; Int8] ValidationNeedMoreData
                           ([0], (0, tt)))
      /\ MessageImpl.validate [Array.field Int8; Int8] 0 [0; 1; 7; 9] 0 4
            (@Message.Make [Array.field Int8; Int8] ValidationNeedMoreData
                           ([0], (0, tt)))
         = Ret (ValidationOK,
                @Message.Make [Array.field Int8; Int8] ValidationOK
                              ([0; 0], (0, tt)))
      /\ MessageImpl.read [Array.field Int8; Int8] [0; 1; 7; 9] 4
            (@Message.Make [Array.field Int8; Int8] ValidationOK
                           ([0; 0], (0, tt)))
         = Ret (true,
                @Message.Make [Array.field Int8; Int8] ValidationOK
                              ([7; 0], (9, tt)))
      /\ Field.write (Sequence.field [Array.field Int8; Int8])
                     ([7; 0], (9, tt))
         = [0; 2; 7; 0; 9]).
Proof. repeat split. Qed.

(** * Further properties *)

(** ** The cursor through [validate] *)

Lemma length_app_growth (data more : Buffer.Instance) :
  Buffer.length (data ++ more)
  = Buffer.length data + Buffer.length more
  /\ 0 <= Buffer.length more.
Proof. unfold Buffer.length. rewrite length_app. lia. Qed.

Lemma slice_growth (data more : Buffer.Instance) (from to : Z) :
  0 <= from <= to -> to <= Buffer.length data ->
  Buffer.slice (data ++ more) from to = Buffer.slice data from to.
Proof.
  unfold Buffer.slice, Buffer.length. intros H1 H2.
  rewrite skipn_app, firstn_app.
  replace (Z.to_nat (to - from)
           - List.length (skipn (Z.to_nat from) data))%nat with 0%nat
    by (rewrite length_skipn; lia).
  rewrite firstn_0. now rewrite app_nil_r.
Qed.

Lemma peekBEInt_growth (size : Z) (data more : Buffer.Instance) (pos v : Z) :
  0 <= pos -> 0 <= size ->
  Buffer.peekBEInt size data pos = Ret v ->
  Buffer.peekBEInt size (data ++ more) pos = Ret v.
Proof.
  intros Hpos Hsize. unfold Buffer.peekBEInt.
  destruct (length_app_growth data more) as [Hlen Hmore].
  destruct (Z.leb_spec (pos + size) (Buffer.length data)); [| discriminate].
  destruct (Z.leb_spec (pos + size) (Buffer.length (data ++ more))); [| lia].
  now rewrite slice_growth by lia.
Qed.

Lemma not_OK_cases (r : ValidationResult) :
  r <> ValidationOK -> r = ValidationFailed \/ r = ValidationNeedMoreData.
Proof. destruct r; auto. congruence. Qed.

(** *** [Int<T>] *)

Lemma Int_conserves_cursor (size : Z) :
  0 <= size -> conserves_cursor (Int.field size).
Proof.
  intros Hsize fuel data so s pos left s' pos' left' Hlen Hpos Hleft.
  simpl. unfold Int.validate.
  destruct (Z.ltb_spec left size); [discriminate |].
  rewrite (uint64_small (Buffer.length data - pos)) by lia.
  destruct (Z.ltb_spec (Buffer.length data - pos) size); [discriminate |].
  rewrite !uint64_small by lia.
  intros E. inversion E; subst. lia.
Qed.

Lemma Int_short_when_more_needed (size : Z) :
  short_when_more_needed (Int.field size).
Proof.
  intros fuel data so s pos left s' pos' left' Hlen Hpos Hleft.
  simpl. unfold Int.validate.
  destruct (Z.ltb_spec left size); [discriminate |].
  rewrite (uint64_small (Buffer.length data - pos)) by lia.
  destruct (Z.ltb_spec (Buffer.length data - pos) size);
    [intros _; lia | discriminate].
Qed.

Lemma Int_stable_under_growth (size : Z) :
  stable_under_growth (Int.field size).
Proof.
  intros fuel data more so s pos left r s' pos' left' Hlen Hpos Hleft.
  destruct (length_app_growth data more) as [Hsum Hmore].
  simpl. unfold Int.validate.
  destruct (Z.ltb_spec left size); [auto |].
  rewrite (uint64_small (Buffer.length data - pos)) by lia.
  rewrite (uint64_small (Buffer.length (data ++ more) - pos)) by lia.
  destruct (Z.ltb_spec (Buffer.length data - pos) size).
  - intros E Hr. inversion E; subst. congruence.
  - destruct (Z.ltb_spec (Buffer.length (data ++ more) - pos) size);
      [lia | auto].
Qed.

(** *** Elements validated one after the other *)

Lemma elements_ok_conserve (T : Field.t) (fuel : nat)
    (data : Buffer.Instance) (start_offset : Z) pos left items pos' left' :
  conserves_cursor T ->
  Buffer.length data < 2 ^ 64 ->
  elements_ok T fuel data start_offset pos left items pos' left' ->
  0 <= pos <= Buffer.length data ->
  0 <= left < 2 ^ 64 ->
  pos <= pos' <= Buffer.length data
  /\ 0 <= left'
  /\ left' = left - (pos' - pos).
Proof.
  intros HT Hlen.
  induction 1 as [pos left | pos left it p1 l1 items p2 l2 Hit Hrest IH];
    intros Hpos Hleft; [lia |].
  destruct (HT _ _ _ _ _ _ _ _ _ Hlen Hpos Hleft Hit) as (Hp & Hl & Hl').
  destruct IH as (Hp2 & Hl2 & Hl2'); lia.
Qed.

Lemma elements_ok_growth (T : Field.t) (fuel : nat)
    (data more : Buffer.Instance) (start_offset : Z)
    pos left items pos' left' :
  conserves_cursor T -> stable_under_growth T ->
  Buffer.length (data ++ more) < 2 ^ 64 ->
  elements_ok T fuel data start_offset pos left items pos' left' ->
  0 <= pos <= Buffer.length data ->
  0 <= left < 2 ^ 64 ->
  elements_ok T fuel (data ++ more) start_offset pos left items pos' left'.
Proof.
  intros Hcons Hstable Hlen.
  destruct (length_app_growth data more) as [Hsum Hmore].
  assert (Hlen0 : Buffer.length data < 2 ^ 64) by lia.
  induction 1 as [pos left | pos left it p1 l1 items p2 l2 Hit Hrest IH];
    intros Hpos Hleft; [constructor |].
  destruct (Hcons _ _ _ _ _ _ _ _ _ Hlen0 Hpos Hleft Hit)
    as (Hp & Hl & Hl').
  econstructor.
  - eapply Hstable; eauto. discriminate.
  - apply IH; lia.
Qed.

(** *** [Array<T>] *)

Lemma Array_loop_not_OK_inv (T : Field.t) (n : nat) :
  forall fuel data so orig_pos orig_left value_ pos left r v pos' left',
    Array.validate_loop T n fuel data so orig_pos orig_left value_ pos left
    = Ret (r, v, pos', left') ->
    r <> ValidationOK ->
    exists items pos1 left1 item pos2 left2,
      elements_ok T fuel data so pos left items pos1 left1
      /\ (List.length items < n)%nat
      /\ Field.validate T fuel data so (Field.init T) pos1 left1
         = Ret (r, item, pos2, left2).
Proof.
  induction n as [| n IH];
    intros fuel data so op ol value_ pos left r v pos' left' H Hr.
  - simpl in H. inversion H; subst. congruence.
  - simpl in H. run_inv H r1 item p1 l1 E1.
    destruct (is_OK r1) eqn:Hr1.
    + apply is_OK_true in Hr1. subst r1.
      destruct (IH _ _ _ _ _ _ _ _ _ _ _ _ H Hr)
        as (items & q1 & k1 & it & q2 & k2 & Hok & Hn & Hv).
      exists (item :: items), q1, k1, it, q2, k2. repeat split.
      * econstructor; eauto.
      * simpl. lia.
      * assumption.
    + inversion H; subst.
      exists [], pos, left, item, p1, l1. repeat split.
      * constructor.
      * simpl. lia.
      * assumption.
Qed.

(** What [Array<T>::validate] does once its two checks have passed. *)
Lemma Array_validate_checked (T : Field.t) (fuel : nat)
    (data : Buffer.Instance) (so : Z) (value_ : Array.state T)
    (pos left : Z) :
  Buffer.length data < 2 ^ 64 ->
  0 <= pos <= Buffer.length data ->
  0 <= left < 2 ^ 64 ->
  (left < 2
   /\ Array.validate T fuel data so value_ pos left
      = Ret (ValidationFailed, value_, pos, left))
  \/ (2 <= left /\ Buffer.length data - pos < 2
      /\ Array.validate T fuel data so value_ pos left
         = Ret (ValidationNeedMoreData, value_, pos, left))
  \/ (2 <= left /\ pos + 2 <= Buffer.length data
      /\ exists size,
          Buffer.peekBEInt 2 data pos = Ret size
          /\ Array.validate T fuel data so value_ pos left
             = Array.validate_loop T (Z.to_nat size) fuel data so pos left
                                   value_ (pos + 2) (left - 2)).
Proof.
  intros Hlen Hpos Hleft. unfold Array.validate.
  destruct (Z.ltb_spec left 2); [left; auto |].
  rewrite (uint64_small (Buffer.length data - pos)) by lia.
  destruct (Z.ltb_spec (Buffer.length data - pos) 2); [right; left; auto |].
  right; right. repeat split; try lia.
  unfold Buffer.peekBEInt at 1 2.
  destruct (Z.leb_spec (pos + 2) (Buffer.length data)); [| lia].
  eexists. split; [reflexivity |]. cbn [bind].
  now rewrite !uint64_small by lia.
Qed.

Lemma Array_conserves_cursor (T : Field.t) :
  conserves_cursor T -> conserves_cursor (Array.field T).
Proof.
  intros HT fuel data so s pos left s' pos' left' Hlen Hpos Hleft. simpl.
  destruct (Array_validate_checked T fuel data so s pos left Hlen Hpos Hleft)
    as [[_ ->] | [(_ & _ & ->) | (Hl & Hp & size & _ & ->)]];
    try discriminate.
  intros Hloop. apply Array_loop_OK_inv in Hloop.
  destruct Hloop as (items & _ & Hok & _).
  destruct (elements_ok_conserve T fuel data so _ _ _ _ _ HT Hlen Hok)
    as (Hp' & Hl' & Hl''); lia.
Qed.

Lemma Array_short_when_more_needed (T : Field.t) :
  conserves_cursor T -> short_when_more_needed T ->
  short_when_more_needed (Array.field T).
Proof.
  intros HT Hshort fuel data so s pos left s' pos' left' Hlen Hpos Hleft.
  simpl.
  destruct (Array_validate_checked T fuel data so s pos left Hlen Hpos Hleft)
    as [[_ ->] | [(? & ? & ->) | (Hl & Hp & size & _ & ->)]];
    try discriminate; [intros _; lia |].
  intros Hloop. apply Array_loop_not_OK_inv in Hloop; [| discriminate].
  destruct Hloop as (items & p1 & l1 & item & p2 & l2 & Hok & _ & Hv).
  destruct (elements_ok_conserve T fuel data so _ _ _ _ _ HT Hlen Hok)
    as (Hp1 & Hl1 & Hl1'); try lia.
  assert (Hq : Buffer.length data - p1 < l1);
    [eapply Hshort; eauto; lia | lia].
Qed.

Lemma Array_loop_growth (T : Field.t) (data more : Buffer.Instance) :
  conserves_cursor T -> stable_under_growth T ->
  Buffer.length (data ++ more) < 2 ^ 64 ->
  forall n fuel so orig_pos orig_left value_ pos left r v pos' left',
    0 <= pos <= Buffer.length data ->
    0 <= left < 2 ^ 64 ->
    Array.validate_loop T n fuel data so orig_pos orig_left value_ pos left
    = Ret (r, v, pos', left') ->
    r <> ValidationNeedMoreData ->
    Array.validate_loop T n fuel (data ++ more) so orig_pos orig_left
                        value_ pos left
    = Ret (r, v, pos', left').
Proof.
  intros Hcons Hstable Hlen.
  destruct (length_app_growth data more) as [Hsum Hmore].
  assert (Hlen0 : Buffer.length data < 2 ^ 64) by lia.
  induction n as [| n IH];
    intros fuel so op ol value_ pos left r v pos' left' Hpos Hleft H Hr;
    [assumption |].
  simpl in H. simpl. run_inv H r1 item p1 l1 E1.
  destruct (is_OK r1) eqn:Hr1.
  - apply is_OK_true in Hr1. subst r1.
    rewrite (Hstable _ _ _ _ _ _ _ _ _ _ _ Hlen Hpos Hleft E1)
      by discriminate.
    cbn [bind is_OK].
    destruct (Hcons _ _ _ _ _ _ _ _ _ Hlen0 Hpos Hleft E1)
      as (Hp & Hl & Hl').
    apply IH; auto; lia.
  - inversion H; subst.
    rewrite (Hstable _ _ _ _ _ _ _ _ _ _ _ Hlen Hpos Hleft E1) by assumption.
    cbn [bind]. now rewrite Hr1.
Qed.

Lemma Array_stable_under_growth (T : Field.t) :
  conserves_cursor T -> stable_under_growth T ->
  stable_under_growth (Array.field T).
Proof.
  intros Hcons Hstable fuel data more so s pos left r s' pos' left'
         Hlen Hpos Hleft.
  destruct (length_app_growth data more) as [Hsum Hmore].
  simpl.
  destruct (Array_validate_checked T fuel (data ++ more) so s pos left
              Hlen ltac:(lia) Hleft)
    as [[? ->] | [(? & ? & ->) | (Hl' & Hp' & size' & Hpeek' & ->)]];
    destruct (Array_validate_checked T fuel data so s pos left
                ltac:(lia) Hpos Hleft)
      as [[? ->] | [(? & ? & ->) | (Hl & Hp & size & Hpeek & ->)]];
    try lia; auto.
  - intros E Hr. inversion E; subst. congruence.
  - apply (peekBEInt_growth 2 data more) in Hpeek; try lia.
    rewrite Hpeek in Hpeek'. inversion Hpeek'; subst size'.
    intros Hloop Hr.
    apply Array_loop_growth; auto; lia.
Qed.

(** *** [Repeated<T>] *)

(** Where the loop of [Repeated<T>::validate] ends: the elements validated
    are kept and the cursor stands after the last of them. *)
Lemma Repeated_validate_OK_inv (T : Field.t) (fuel : nat)
    (data : Buffer.Instance) (so : Z) (value_ : Repeated.state T)
    (pos left : Z) r s' pos' left' :
  restores_cursor T ->
  Repeated.validate T fuel data so value_ pos left = Ret (r, s', pos', left') ->
  (r = ValidationNeedMoreData
   /\ uint64 (Buffer.length data - pos) < left
   /\ s' = value_ /\ pos' = pos /\ left' = left)
  \/ (r = ValidationOK
      /\ left <= uint64 (Buffer.length data - pos)
      /\ exists items,
          s' = value_ ++ items
          /\ repeated_ok T fuel data so pos left items pos' left'
          /\ (left' = 0
              \/ (left' <> 0
                  /\ exists result item,
                      Field.validate T fuel data so (Field.init T) pos' left'
                        = Ret (result, item, pos', left')
                      /\ result <> ValidationOK))).
Proof.
  intros Hrestore. unfold Repeated.validate.
  destruct (Z.ltb_spec (uint64 (Buffer.length data - pos)) left).
  - intros E. inversion E; subst. left. auto.
  - destruct (Repeated.validate_loop T fuel fuel data so value_ pos left)
      as [[[v p] l] | h] eqn:Hloop; cbn [bind]; intros E; [| discriminate].
    inversion E; subst r s' pos' left'. clear E. right.
    apply Repeated_loop_inv in Hloop.
    destruct Hloop as (items & p1 & l1 & -> & Hok & Hend).
    repeat split; auto. exists items.
    destruct Hend as [(-> & -> & ->) | (Hne & res & item & Hv & Hres)].
    + repeat split; auto.
    + destruct (Hrestore _ _ _ _ _ _ _ _ _ _ Hv Hres) as [-> ->].
      repeat split; auto. right. split; [assumption |]. eauto.
Qed.

Lemma Repeated_conserves_cursor (T : Field.t) :
  restores_cursor T -> conserves_cursor T ->
  conserves_cursor (Repeated.field T).
Proof.
  intros Hrestore HT fuel data so s pos left s' pos' left' Hlen Hpos Hleft.
  simpl. intros H.
  apply Repeated_validate_OK_inv in H; [| assumption].
  destruct H as [(E & _) | (_ & _ & items & _ & Hok & _)]; [discriminate |].
  apply repeated_ok_elements_ok in Hok.
  eapply elements_ok_conserve; eauto.
Qed.

Lemma Repeated_short_when_more_needed (T : Field.t) :
  restores_cursor T -> short_when_more_needed (Repeated.field T).
Proof.
  intros Hrestore fuel data so s pos left s' pos' left' Hlen Hpos Hleft.
  simpl. intros H.
  apply Repeated_validate_OK_inv in H; [| assumption].
  destruct H as [(_ & Hshort & _) | (E & _)]; [| discriminate].
  rewrite uint64_small in Hshort; lia.
Qed.

Lemma Repeated_loop_growth (T : Field.t) (data more : Buffer.Instance) :
  conserves_cursor T -> short_when_more_needed T -> stable_under_growth T ->
  Buffer.length (data ++ more) < 2 ^ 64 ->
  forall n fuel so value_ pos left v pos' left',
    0 <= pos <= Buffer.length data ->
    0 <= left <= Buffer.length data - pos ->
    Repeated.validate_loop T n fuel data so value_ pos left
    = Ret (v, pos', left') ->
    Repeated.validate_loop T n fuel (data ++ more) so value_ pos left
    = Ret (v, pos', left').
Proof.
  intros Hcons Hshort Hstable Hlen.
  destruct (length_app_growth data more) as [Hsum Hmore].
  assert (Hlen0 : Buffer.length data < 2 ^ 64) by lia.
  induction n as [| n IH];
    intros fuel so value_ pos left v pos' left' Hpos Hleft H;
    [assumption |].
  simpl in H. simpl. destruct (Z.eqb_spec left 0); [assumption |].
  run_inv H r1 item p1 l1 E1.
  assert (Hr1 : r1 <> ValidationNeedMoreData).
  { intros ->.
    assert (Buffer.length data - pos < left);
      [eapply Hshort; eauto; lia | lia]. }
  assert (Hleft' : 0 <= left < 2 ^ 64) by lia.
  rewrite (Hstable _ _ _ _ _ _ _ _ _ _ _ Hlen Hpos Hleft' E1 Hr1).
  cbn [bind]. destruct (is_OK r1) eqn:Hok; [| assumption].
  apply is_OK_true in Hok. subst r1.
  destruct (Hcons _ _ _ _ _ _ _ _ _ Hlen0 Hpos Hleft' E1)
    as (Hp & Hl & Hl').
  apply IH; auto; lia.
Qed.

Lemma Repeated_stable_under_growth (T : Field.t) :
  conserves_cursor T -> short_when_more_needed T -> stable_under_growth T ->
  stable_under_growth (Repeated.field T).
Proof.
  intros Hcons Hshort Hstable fuel data more so s pos left r s' pos' left'
         Hlen Hpos Hleft.
  destruct (length_app_growth data more) as [Hsum Hmore].
  simpl. unfold Repeated.validate.
  rewrite (uint64_small (Buffer.length data - pos)) by lia.
  rewrite (uint64_small (Buffer.length (data ++ more) - pos)) by lia.
  destruct (Z.ltb_spec (Buffer.length data - pos) left).
  - intros E Hr. inversion E; subst. congruence.
  - destruct (Z.ltb_spec (Buffer.length (data ++ more) - pos) left); [lia |].
    destruct (Repeated.validate_loop T fuel fuel data so s pos left)
      as [[[v p] l] | h] eqn:Hloop; cbn [bind]; intros E Hr; [| discriminate].
    rewrite (Repeated_loop_growth T data more Hcons Hshort Hstable Hlen
               fuel fuel so s pos left v p l); auto; lia.
Qed.

(** *** [Sequence<Types...>] *)

Lemma Sequence_validate_inv (F R : Field.t) (fuel : nat)
    (data : Buffer.Instance) (so : Z) (s : Sequence.state F R)
    (pos left : Z) r s' pos' left' :
  Sequence.validate F R fuel data so s pos left = Ret (r, s', pos', left') ->
  (exists first' p1 l1,
      Field.validate F fuel data so (fst s) pos left = Ret (r, first', p1, l1)
      /\ r <> ValidationOK
      /\ s' = (first', snd s) /\ pos' = pos /\ left' = left)
  \/ (exists first' p1 l1 remaining' p2 l2,
         Field.validate F fuel data so (fst s) pos left
           = Ret (ValidationOK, first', p1, l1)
         /\ Field.validate R fuel data so (snd s) p1 l1
            = Ret (r, remaining', p2, l2)
         /\ s' = (first', remaining')
         /\ ((r = ValidationOK /\ pos' = p2 /\ left' = l2)
             \/ (r <> ValidationOK /\ pos' = pos /\ left' = left))).
Proof.
  unfold Sequence.validate. intros H.
  run_inv H r1 f' p1 l1 E1. destruct (is_OK r1) eqn:Hr1.
  - apply is_OK_true in Hr1. subst r1. right.
    run_inv H r2 r' p2 l2 E2. destruct (is_OK r2) eqn:Hr2.
    + apply is_OK_true in Hr2. subst r2. inversion H; subst.
      exists f', p1, l1, r', pos', left'. repeat split; auto.
    + inversion H; subst. exists f', p1, l1, r', p2, l2.
      repeat split; auto. right. repeat split; auto.
      intros ->. discriminate.
  - inversion H; subst. left. exists f', p1, l1. repeat split; auto.
    intros ->. discriminate.
Qed.

Lemma Sequence_cons_conserves_cursor (F R : Field.t) :
  conserves_cursor F -> conserves_cursor R ->
  conserves_cursor (Sequence.cons F R).
Proof.
  intros HF HR fuel data so s pos left s' pos' left' Hlen Hpos Hleft.
  simpl. intros H. apply Sequence_validate_inv in H.
  destruct H as [(f' & p1 & l1 & _ & Hne & _)
                | (f' & p1 & l1 & r' & p2 & l2 & E1 & E2 & _ & Hend)];
    [congruence |].
  destruct Hend as [(_ & -> & ->) | (Hne & _)]; [| congruence].
  destruct (HF _ _ _ _ _ _ _ _ _ Hlen Hpos Hleft E1) as (Hp1 & Hl1 & Hl1').
  assert (Hp1' : 0 <= p1 <= Buffer.length data) by lia.
  assert (Hl1'' : 0 <= l1 < 2 ^ 64) by lia.
  destruct (HR _ _ _ _ _ _ _ _ _ Hlen Hp1' Hl1'' E2) as (Hp2 & Hl2 & Hl2').
  lia.
Qed.

Lemma Sequence_cons_short_when_more_needed (F R : Field.t) :
  conserves_cursor F -> short_when_more_needed F ->
  short_when_more_needed R ->
  short_when_more_needed (Sequence.cons F R).
Proof.
  intros HF HsF HsR fuel data so s pos left s' pos' left' Hlen Hpos Hleft.
  simpl. intros H. apply Sequence_validate_inv in H.
  destruct H as [(f' & p1 & l1 & E1 & _)
                | (f' & p1 & l1 & r' & p2 & l2 & E1 & E2 & _)].
  - eapply HsF; eauto.
  - destruct (HF _ _ _ _ _ _ _ _ _ Hlen Hpos Hleft E1) as (Hp1 & Hl1 & Hl1').
    assert (Buffer.length data - p1 < l1);
      [eapply HsR; eauto; lia | lia].
Qed.

Lemma Sequence_cons_stable_under_growth (F R : Field.t) :
  conserves_cursor F -> stable_under_growth F -> stable_under_growth R ->
  stable_under_growth (Sequence.cons F R).
Proof.
  intros HF HgF HgR fuel data more so s pos left r s' pos' left'
         Hlen Hpos Hleft.
  destruct (length_app_growth data more) as [Hsum Hmore].
  assert (Hlen0 : Buffer.length data < 2 ^ 64) by lia.
  simpl. intros H Hr. apply Sequence_validate_inv in H.
  unfold Sequence.validate.
  destruct H as [(f' & p1 & l1 & E1 & Hne & -> & -> & ->)
                | (f' & p1 & l1 & r' & p2 & l2 & E1 & E2 & -> & Hend)].
  - rewrite (HgF _ _ _ _ _ _ _ _ _ _ _ Hlen Hpos Hleft E1 Hr).
    cbn [bind]. now rewrite (is_OK_false _ Hne).
  - rewrite (HgF _ _ _ _ _ _ _ _ _ _ _ Hlen Hpos Hleft E1)
      by discriminate.
    cbn [bind is_OK].
    destruct (HF _ _ _ _ _ _ _ _ _ Hlen0 Hpos Hleft E1) as (Hp1 & Hl1 & Hl1').
    assert (Hp1' : 0 <= p1 <= Buffer.length data) by lia.
    assert (Hl1'' : 0 <= l1 < 2 ^ 64) by lia.
    rewrite (HgR _ _ _ _ _ _ _ _ _ _ _ Hlen Hp1' Hl1'' E2 Hr).
    cbn [bind].
    destruct Hend as [(-> & -> & ->) | (Hne & -> & ->)];
      [reflexivity | now rewrite (is_OK_false _ Hne)].
Qed.

Lemma header_field_laws (F : Field.t) :
  header_field F ->
  restores_cursor F /\ conserves_cursor F
  /\ short_when_more_needed F /\ stable_under_growth F.
Proof.
  induction 1 as [size Hsize
                 | T HT (IHr & IHc & IHs & IHg)
                 | T HT (IHr & IHc & IHs & IHg)
                 |
                 | F R HF (IHFr & IHFc & IHFs & IHFg)
                       HR (IHRr & IHRc & IHRs & IHRg)].
  - refine (conj _ (conj _ (conj _ _))).
    + apply Int_restores_cursor.
    + apply Int_conserves_cursor. lia.
    + apply Int_short_when_more_needed.
    + apply Int_stable_under_growth.
  - refine (conj _ (conj _ (conj _ _))).
    + apply Array_restores_cursor.
    + now apply Array_conserves_cursor.
    + now apply Array_short_when_more_needed.
    + now apply Array_stable_under_growth.
  - refine (conj _ (conj _ (conj _ _))).
    + apply Repeated_restores_cursor.
    + now apply Repeated_conserves_cursor.
    + now apply Repeated_short_when_more_needed.
    + now apply Repeated_stable_under_growth.
  - refine (conj _ (conj _ (conj _ _))).
    + apply Sequence_empty_restores_cursor.
    + intros fuel data so s pos left s' pos' left' Hlen Hpos Hleft E.
      simpl in E. inversion E; subst. lia.
    + intros fuel data so s pos left s' pos' left' _ _ _ E.
      simpl in E. discriminate.
    + intros fuel data more so s pos left r s' pos' left' _ _ _ E _.
      exact E.
  - refine (conj _ (conj _ (conj _ _))).
    + apply Sequence_cons_restores_cursor.
    + now apply Sequence_cons_conserves_cursor.
    + now apply Sequence_cons_short_when_more_needed.
    + now apply Sequence_cons_stable_under_growth.
Qed.

(** X1. For every field built from the integers, arrays, repetitions and
    sequences of the header, in any state and at any cursor: a [validate]
    that returns a result other than [ValidationOK] leaves position and
    remaining budget exactly as they were. *)
Theorem validate_failure_leaves_cursor (F : Field.t) (fuel : nat)
    (data : Buffer.Instance) (start_offset : Z) (s s' : Field.state F)
    (pos left pos' left' : Z) (result : ValidationResult) :
  header_field F ->
  Field.validate F fuel data start_offset s pos left
    = Ret (result, s', pos', left') ->
  result <> ValidationOK ->
  pos' = pos /\ left' = left.
Proof.
  intros HF. destruct (header_field_laws F HF) as (Hrestore & _).
  apply Hrestore.
Qed.

Lemma validate_failure_leaves_cursor_witness :
  Field.validate (Sequence.field [Int8; Array.field Int16]) 0
                 [7; 0; 2; 0; 1] 0 (0, ([], tt)) 0 9
  = Ret (ValidationNeedMoreData, (0, ([], tt)), 0, 9)
  /\ 0 = 0 /\ 9 = 9.
Proof.
  split; [reflexivity |].
  apply (validate_failure_leaves_cursor
           (Sequence.field [Int8; Array.field Int16]) 0 [7; 0; 2; 0; 1] 0
           (0, ([], tt)) (0, ([], tt)) 0 9 0 9 ValidationNeedMoreData).
  - apply Sequence_field_header.
    apply Forall_cons; [apply header_Int; lia |].
    apply Forall_cons; [apply header_Array, header_Int; lia |].
    apply Forall_nil.
  - reflexivity.
  - discriminate.
Defined.

(** X2. For every such field, in any state, at a cursor inside the buffer:
    a [validate] that returns [ValidationOK] has moved the position
    forward, not past the end of the buffer, and has lowered the remaining
    budget by exactly the number of bytes it moved over, never below
    zero. *)
Theorem validate_OK_conserves_cursor (F : Field.t) (fuel : nat)
    (data : Buffer.Instance) (start_offset : Z) (s s' : Field.state F)
    (pos left pos' left' : Z) :
  header_field F ->
  Buffer.length data < 2 ^ 64 ->
  0 <= pos <= Buffer.length data ->
  0 <= left < 2 ^ 64 ->
  Field.validate F fuel data start_offset s pos left
    = Ret (ValidationOK, s', pos', left') ->
  pos <= pos' <= Buffer.length data
  /\ 0 <= left'
  /\ left' = left - (pos' - pos).
Proof.
  intros HF. destruct (header_field_laws F HF) as (_ & Hcons & _).
  apply Hcons.
Qed.

Lemma validate_OK_conserves_cursor_witness :
  Field.validate (Sequence.field [Int8; Array.field Int16]) 0
                 [7; 0; 2; 0; 1; 0; 3] 0 (0, ([], tt)) 0 9
  = Ret (ValidationOK, (0, ([0; 0], tt)), 7, 2)
  /\ 0 <= 7 <= Buffer.length [7; 0; 2; 0; 1; 0; 3]
  /\ 0 <= 2
  /\ 2 = 9 - (7 - 0).
Proof.
  split; [reflexivity |].
  apply (validate_OK_conserves_cursor
           (Sequence.field [Int8; Array.field Int16]) 0
           [7; 0; 2; 0; 1; 0; 3] 0 (0, ([], tt)) (0, ([0; 0], tt)) 0 9 7 2).
  - apply Sequence_field_header.
    apply Forall_cons; [apply header_Int; lia |].
    apply Forall_cons; [apply header_Array, header_Int; lia |].
    apply Forall_nil.
  - unfold Buffer.length. simpl. lia.
  - unfold Buffer.length. simpl. lia.
  - lia.
  - reflexivity.
Defined.

(** X3. For every such field, in any state, at a cursor inside the buffer:
    [validate] returns [ValidationNeedMoreData] only when the buffer holds
    fewer bytes at the position than the remaining budget; once the whole
    budget is in the buffer the answer is [ValidationOK] or
    [ValidationFailed]. *)
Theorem validate_needs_more_only_when_short (F : Field.t) (fuel : nat)
    (data : Buffer.Instance) (start_offset : Z) (s s' : Field.state F)
    (pos left pos' left' : Z) :
  header_field F ->
  Buffer.length data < 2 ^ 64 ->
  0 <= pos <= Buffer.length data ->
  0 <= left < 2 ^ 64 ->
  Field.validate F fuel data start_offset s pos left
    = Ret (ValidationNeedMoreData, s', pos', left') ->
  Buffer.available data pos < left.
Proof.
  intros HF Hlen Hpos Hleft H.
  rewrite (available_in_range data pos Hpos).
  destruct (header_field_laws F HF) as (_ & _ & Hshort & _).
  eapply Hshort; eauto.
Qed.

Lemma validate_needs_more_only_when_short_witness :
  Field.validate (Sequence.field [Int8; Array.field Int16]) 0
                 [7; 0; 2; 0; 1] 0 (0, ([], tt)) 0 9
  = Ret (ValidationNeedMoreData, (0, ([], tt)), 0, 9)
  /\ Buffer.available [7; 0; 2; 0; 1] 0 < 9.
Proof.
  split; [reflexivity |].
  apply (validate_needs_more_only_when_short
           (Sequence.field [Int8; Array.field Int16]) 0 [7; 0; 2; 0; 1] 0
           (0, ([], tt)) (0, ([], tt)) 0 9 0 9).
  - apply Sequence_field_header.
    apply Forall_cons; [apply header_Int; lia |].
    apply Forall_cons; [apply header_Array, header_Int; lia |].
    apply Forall_nil.
  - unfold Buffer.length. simpl. lia.
  - unfold Buffer.length. simpl. lia.
  - lia.
  - reflexivity.
Defined.

(** X4. For every such field, in any state, at a cursor inside the buffer:
    a [validate] that returned [ValidationOK] or [ValidationFailed] returns
    the same result, members and cursor again after any bytes have been
    appended to the buffer. Only [ValidationNeedMoreData] can change as the
    buffer grows. *)
Theorem validate_stable_under_growth (F : Field.t) (fuel : nat)
    (data more : Buffer.Instance) (start_offset : Z) (s s' : Field.state F)
    (pos left pos' left' : Z) (result : ValidationResult) :
  header_field F ->
  Buffer.length (data ++ more) < 2 ^ 64 ->
  0 <= pos <= Buffer.length data ->
  0 <= left < 2 ^ 64 ->
  Field.validate F fuel data start_offset s pos left
    = Ret (result, s', pos', left') ->
  result <> ValidationNeedMoreData ->
  Field.validate F fuel (data ++ more) start_offset s pos left
    = Ret (result, s', pos', left').
Proof.
  intros HF. destruct (header_field_laws F HF) as (_ & _ & _ & Hgrow).
  apply Hgrow.
Qed.

Lemma validate_stable_under_growth_witness :
  Field.validate (Sequence.field [Int8; Repeated.field Int16]) 3
                 ([7; 0; 2; 0] ++ [1; 5]) 0 (0, ([], tt)) 0 4
  = Ret (ValidationOK, (0, ([0], tt)), 3, 1).
Proof.
  apply (validate_stable_under_growth
           (Sequence.field [Int8; Repeated.field Int16]) 3
           [7; 0; 2; 0] [1; 5] 0 (0, ([], tt)) (0, ([0], tt)) 0 4 3 1
           ValidationOK).
  - apply Sequence_field_header.
    apply Forall_cons; [apply header_Int; lia |].
    apply Forall_cons; [apply header_Repeated, header_Int; lia |].
    apply Forall_nil.
  - unfold Buffer.length. simpl. lia.
  - unfold Buffer.length. simpl. lia.
  - lia.
  - reflexivity.
  - discriminate.
Defined.

(** X5. For a [Repeated<T>] over such an element type, at a cursor inside
    the buffer: when [validate] returns [ValidationOK], either the budget is
    used up, or the element attempted at the final cursor returned
    [ValidationFailed]. The loop is never left on an element's
    [ValidationNeedMoreData]. *)
Theorem Repeated_validate_stops_on_failed (T : Field.t) (fuel : nat)
    (data : Buffer.Instance) (start_offset : Z)
    (value_ s' : Repeated.state T) (pos left pos' left' : Z) :
  header_field T ->
  Buffer.length data < 2 ^ 64 ->
  0 <= pos <= Buffer.length data ->
  0 <= left < 2 ^ 64 ->
  Repeated.validate T fuel data start_offset value_ pos left
    = Ret (ValidationOK, s', pos', left') ->
  left' = 0
  \/ (0 < left'
      /\ exists item,
          Field.validate T fuel data start_offset (Field.init T) pos' left'
          = Ret (ValidationFailed, item, pos', left')).
Proof.
  intros HT Hlen Hpos Hleft H.
  destruct (header_field_laws T HT) as (Hrestore & Hcons & Hshort & _).
  apply Repeated_validate_OK_inv in H; [| assumption].
  destruct H as [(E & _) | (_ & Hcheck & items & _ & Hok & Hend)];
    [discriminate |].
  rewrite uint64_small in Hcheck by lia.
  apply repeated_ok_elements_ok in Hok.
  destruct (elements_ok_conserve T fuel data start_offset _ _ _ _ _
              Hcons Hlen Hok Hpos Hleft) as (Hp & Hl & Hl').
  destruct Hend as [-> | (Hne & res & item & Hv & Hres)]; [now left |].
  right. split; [lia |]. exists item.
  destruct (not_OK_cases res Hres) as [-> | ->]; [assumption |].
  assert (Buffer.length data - pos' < left');
    [eapply Hshort; eauto; lia | lia].
Qed.

Lemma Repeated_validate_stops_on_failed_witness :
  Repeated.validate Int16 2 [1; 2; 3] 0 [] 0 3
  = Ret (ValidationOK, [0], 2, 1)
  /\ (1 = 0
      \/ (0 < 1
          /\ exists item,
              Field.validate Int16 2 [1; 2; 3] 0 (Field.init Int16) 2 1
              = Ret (ValidationFailed, item, 2, 1))).
Proof.
  split; [reflexivity |].
  apply (Repeated_validate_stops_on_failed Int16 2 [1; 2; 3] 0 [] [0] 0 3 2 1).
  - apply header_Int. lia.
  - unfold Buffer.length. simpl. lia.
  - unfold Buffer.length. simpl. lia.
  - lia.
  - reflexivity.
Defined.

(** ** [read] *)

(** X6. In a chain [Pre..., F, Post...]: when the fields of [Pre] are read
    with result true and the [read] of [F] then returns false,
    [Sequence::read] returns false, leaves the later fields untouched, and,
    unlike [validate], leaves the cursor where the field that returned false
    left it. *)
Theorem Sequence_read_first_false
    (data : Buffer.Instance)
    (Pre : list Field.t) (F : Field.t) (Post : list Field.t)
    (pre pre' : Field.state (Sequence.field Pre))
    (first first' : Field.state F)
    (post : Field.state (Sequence.field Post))
    (pos left pos1 left1 pos2 left2 : Z) :
  fields_read data Pre pre pos left pre' pos1 left1 ->
  Field.read F data first pos1 left1 = Ret (false, first', pos2, left2) ->
  Field.read (Sequence.field (Pre ++ F :: Post)) data
             (Sequence.join Pre (F :: Post) pre (first, post)) pos left
  = Ret (false, Sequence.join Pre (F :: Post) pre' (first', post),
         pos2, left2).
Proof.
  intros Hpre. revert first first' post pos2 left2.
  induction Hpre as [s pos left
                    | G Types s pos left g' p1 l1 rest' p2 l2 HG Hrest IH];
    intros first first' post pos2 left2 HF.
  - simpl. unfold Sequence.read. cbn [fst snd]. rewrite HF. reflexivity.
  - simpl app. simpl Sequence.join.
    change (Field.read (Sequence.field (G :: Types ++ F :: Post)))
      with (Sequence.read G (Sequence.field (Types ++ F :: Post))).
    unfold Sequence.read. cbn [fst snd]. rewrite HG. cbn [bind].
    rewrite (IH first first' post pos2 left2 HF). reflexivity.
Qed.

(** A field whose [read] returns false stops the chain after the integer
    before it has been read. *)
Lemma Sequence_read_first_false_witness :
  Field.read (Sequence.field ([Int8] ++ refusing_field :: [Int16])) [7; 8; 9]
             (Sequence.join [Int8] [refusing_field; Int16] (0, tt)
                            (String.Make 0 0 [], (5, tt)))
             0 1
  = Ret (false,
         Sequence.join [Int8] [refusing_field; Int16] (7, tt)
                       (String.Make 0 0 [], (5, tt)),
         1, 0).
Proof.
  apply (Sequence_read_first_false [7; 8; 9] [Int8] refusing_field [Int16]
           (0, tt) (7, tt) (String.Make 0 0 []) (String.Make 0 0 [])
           (5, tt) 0 1 1 0 1 0).
  - apply (fields_read_cons [7; 8; 9] Int8 [] (0, tt) 0 1 7 1 0 tt 1 0).
    + reflexivity.
    + apply fields_read_nil.
  - reflexivity.
Defined.

Lemma Array_read_loop_returns (T : Field.t) (data : Buffer.Instance)
    pos left front oks front' pos' left' :
  elements_read T data pos left front oks front' pos' left' ->
  forall back,
    Array.read_loop T (List.length front) data (front ++ back) pos left
    = Ret (front' ++ back, pos', left').
Proof.
  induction 1 as [pos left
                 | pos left e ok e' p1 l1 es oks es' p2 l2 He Hes IH];
    intros back; [reflexivity |].
  simpl. rewrite He. cbn [bind]. rewrite IH. reflexivity.
Qed.

Lemma Array_read_loop_runs_off (T : Field.t) (data : Buffer.Instance)
    pos left elems oks elems' pos' left' :
  elements_read T data pos left elems oks elems' pos' left' ->
  forall n,
    (List.length elems < n)%nat ->
    Array.read_loop T n data elems pos left = Stop IndexOutOfRange.
Proof.
  induction 1 as [pos left
                 | pos left e ok e' p1 l1 es oks es' p2 l2 He Hes IH];
    intros n Hn.
  - destruct n; [simpl in Hn; lia | reflexivity].
  - destruct n as [| n]; [simpl in Hn; lia |].
    simpl. rewrite He. cbn [bind]. rewrite IH; [reflexivity |].
    simpl in Hn. lia.
Qed.

(** X7. [Array<T>::read] reads the count [size] at the cursor and calls
    [read] on the first [size] elements of [value_], in order. Whatever the
    elements' reads return, the array's [read] returns true; elements of
    [value_] after the first [size] are left as they are. When [value_]
    holds fewer than [size] elements the loop indexes past the end of the
    vector. *)
Theorem Array_read_first_size_elements (T : Field.t)
    (data : Buffer.Instance) (front front' back : Array.state T)
    (oks : list bool) (pos left size pos' left' : Z) :
  Buffer.peekBEInt 2 data pos = Ret size ->
  elements_read T data (uint64 (pos + 2)) (uint64 (left - 2))
                front oks front' pos' left' ->
  (List.length front = Z.to_nat size ->
   Array.read T data (front ++ back) pos left
   = Ret (true, front' ++ back, pos', left'))
  /\ ((List.length front < Z.to_nat size)%nat ->
      Array.read T data front pos left = Stop IndexOutOfRange).
Proof.
  intros Hpeek Hread. unfold Array.read. rewrite Hpeek. cbn [bind]. split.
  - intros <-. rewrite (Array_read_loop_returns T data _ _ _ _ _ _ _ Hread).
    reflexivity.
  - intros Hn.
    rewrite (Array_read_loop_runs_off T data _ _ _ _ _ _ _ Hread _ Hn).
    reflexivity.
Qed.

(** An array that holds two elements more than the count, and a
    default-constructed array, read on the count 1 and the byte 9. *)
Lemma Array_read_first_size_elements_witness :
  Array.read Int8 [0; 1; 9] ([0] ++ [4; 5]) 0 3
  = Ret (true, [9] ++ [4; 5], 3, 0)
  /\ Array.read Int8 [0; 1; 9] [] 0 3 = Stop IndexOutOfRange.
Proof.
  split.
  - refine (proj1 (Array_read_first_size_elements
                     Int8 [0; 1; 9] [0] [9] [4; 5] [true] 0 3 1 3 0 _ _) _).
    + reflexivity.
    + apply (elements_read_cons Int8 [0; 1; 9] 2 1 0 true 9 3 0 [] [] [] 3 0);
        [reflexivity | apply elements_read_nil].
    + reflexivity.
  - refine (proj2 (Array_read_first_size_elements
                     Int8 [0; 1; 9] [] [] [] [] 0 3 1 2 1 _ _) _).
    + reflexivity.
    + apply elements_read_nil.
    + simpl. lia.
Defined.

(** X8. [Repeated<T>::read] calls [read] on the elements of [value_] in
    order and stops at the first that returns false: it returns false, the
    elements after that one are left as they are, and the cursor stays where
    that element left it. When every element returns true it returns true
    with the cursor after the last. *)
Theorem Repeated_read_first_false (T : Field.t) (data : Buffer.Instance)
    (front front' back : Repeated.state T) (oks : list bool)
    (pos left pos1 left1 : Z) :
  elements_read T data pos left front oks front' pos1 left1 ->
  Forall (fun ok => ok = true) oks ->
  Repeated.read T data front pos left = Ret (true, front', pos1, left1)
  /\ (forall elem elem' pos2 left2,
         Field.read T data elem pos1 left1
         = Ret (false, elem', pos2, left2) ->
         Repeated.read T data (front ++ elem :: back) pos left
         = Ret (false, front' ++ elem' :: back, pos2, left2)).
Proof.
  unfold Repeated.read.
  induction 1 as [pos left
                 | pos left e ok e' p1 l1 es oks es' p2 l2 He Hes IH];
    intros Hoks.
  - split; [reflexivity |].
    intros elem elem' pos2 left2 Hf. simpl. rewrite Hf. reflexivity.
  - inversion Hoks as [| ? ? Hok Hoks']; subst.
    destruct (IH Hoks') as [IHt IHf]. split.
    + simpl. rewrite He. cbn [bind]. rewrite IHt. reflexivity.
    + intros elem elem' pos2 left2 Hf. simpl. rewrite He. cbn [bind].
      rewrite (IHf elem elem' pos2 left2 Hf). reflexivity.
Qed.

Lemma Repeated_read_first_false_witness :
  Repeated.read refusing_field [7; 8]
                ([String.Make 0 0 []]
                 ++ String.Make 0 0 [] :: [String.Make 0 0 []]) 0 1
  = Ret (false,
         [String.Make 0 0 []]
         ++ String.Make 0 0 [] :: [String.Make 0 0 []], 1, 0).
Proof.
  refine (proj2 (Repeated_read_first_false
                   refusing_field [7; 8] [String.Make 0 0 []] [String.Make 0 0 []]
                   [String.Make 0 0 []] [true] 0 1 1 0 _ _)
                (String.Make 0 0 []) (String.Make 0 0 []) 1 0 _).
  - apply (elements_read_cons refusing_field [7; 8] 0 1 (String.Make 0 0 []) true
             (String.Make 0 0 []) 1 0 [] [] [] 1 0);
      [reflexivity | apply elements_read_nil].
  - repeat constructor.
  - reflexivity.
Defined.

(** X9. The [read] of a field built from the integers, arrays, repetitions
    and sequences of the header never returns false: it returns true, or
    does not return (the buffer is too short, or an array holds fewer
    elements than its count). *)
Theorem header_read_never_false (F : Field.t) (data : Buffer.Instance)
    (s s' : Field.state F) (pos left pos' left' : Z) (ok : bool) :
  header_field F ->
  Field.read F data s pos left = Ret (ok, s', pos', left') ->
  ok = true.
Proof.
  intros HF. revert s s' pos left pos' left' ok.
  induction HF as [size Hsize | T HT IH | T HT IH | | F R HF IHF HR IHR];
    intros s s' pos left pos' left' ok; simpl.
  - unfold Int.read.
    destruct (Buffer.peekBEInt size data pos); cbn [bind];
      intros E; now inversion E.
  - unfold Array.read.
    destruct (Buffer.peekBEInt 2 data pos); cbn [bind]; [| discriminate].
    destruct (Array.read_loop T _ data s _ _) as [[[v p] l] | h];
      cbn [bind]; intros E; now inversion E.
  - unfold Repeated.read. revert s' pos left pos' left' ok.
    induction s as [| e es IHs]; intros s' pos left pos' left' ok; simpl.
    + intros E. now inversion E.
    + destruct (Field.read T data e pos left) as [[[[ok1 e'] p1] l1] | h]
        eqn:He; cbn [bind]; [| discriminate].
      rewrite (IH _ _ _ _ _ _ _ He).
      destruct (Repeated.read_loop T data es p1 l1)
        as [[[[ok2 es'] p2] l2] | h] eqn:Hes; cbn [bind]; [| discriminate].
      intros E. inversion E; subst. eapply IHs; eauto.
  - intros E. now inversion E.
  - unfold Sequence.read.
    destruct (Field.read F data (fst s) pos left)
      as [[[[ok1 f'] p1] l1] | h] eqn:Hf; cbn [bind]; [| discriminate].
    rewrite (IHF _ _ _ _ _ _ _ Hf).
    destruct (Field.read R data (snd s) p1 l1)
      as [[[[ok2 r'] p2] l2] | h] eqn:Hr; cbn [bind]; [| discriminate].
    intros E. inversion E; subst. eapply IHR; eauto.
Qed.

Lemma header_read_never_false_witness :
  Field.read (Sequence.field [Int8; Repeated.field Int16]) [7; 0; 2]
             (0, ([0], tt)) 0 3
  = Ret (true, (7, ([2], tt)), 3, 0)
  /\ true = true.
Proof.
  split; [reflexivity |].
  apply (header_read_never_false
           (Sequence.field [Int8; Repeated.field Int16]) [7; 0; 2]
           (0, ([0], tt)) (7, ([2], tt)) 0 3 3 0 true).
  - apply Sequence_field_header.
    apply Forall_cons; [apply header_Int; lia |].
    apply Forall_cons; [apply header_Repeated, header_Int; lia |].
    apply Forall_nil.
  - reflexivity.
Defined.

(** ** [Array<T>::validate] at its edges *)

(** X10. [Array<T>::validate] at a cursor inside the buffer: with a budget
    below 2 it returns [ValidationFailed]; otherwise, with fewer than 2
    bytes at the position, [ValidationNeedMoreData]; in both cases cursor
    and elements are untouched. With a count of 0 it returns [ValidationOK]
    after the two bytes of the count, and the elements it already held
    stay in [value_]. *)
Theorem Array_validate_edges (T : Field.t) (fuel : nat)
    (data : Buffer.Instance) (start_offset : Z) (value_ : Array.state T)
    (pos left : Z) :
  Buffer.length data < 2 ^ 64 ->
  0 <= pos <= Buffer.length data ->
  0 <= left < 2 ^ 64 ->
  (left < 2 ->
   Array.validate T fuel data start_offset value_ pos left
   = Ret (ValidationFailed, value_, pos, left))
  /\ (2 <= left -> Buffer.available data pos < 2 ->
      Array.validate T fuel data start_offset value_ pos left
      = Ret (ValidationNeedMoreData, value_, pos, left))
  /\ (2 <= left -> Buffer.peekBEInt 2 data pos = Ret 0 ->
      Array.validate T fuel data start_offset value_ pos left
      = Ret (ValidationOK, value_, pos + 2, left - 2)).
Proof.
  intros Hlen Hpos Hleft.
  rewrite (available_in_range data pos Hpos).
  destruct (Array_validate_checked T fuel data start_offset value_ pos left
              Hlen Hpos Hleft)
    as [[H1 E] | [(H1 & H2 & E) | (H1 & H2 & size & Hpeek & E)]];
    rewrite E; clear E.
  - split; [reflexivity |]. split; intros; lia.
  - split; [intros; lia |]. split; [reflexivity |].
    intros _ Hzero. unfold Buffer.peekBEInt in Hzero.
    destruct (Z.leb_spec (pos + 2) (Buffer.length data));
      [lia | discriminate].
  - split; [intros; lia |]. split; [intros; lia |].
    intros _ Hzero. rewrite Hpeek in Hzero. inversion Hzero; subst size.
    reflexivity.
Qed.

Lemma Array_validate_edges_witness :
  Array.validate Int8 0 [7; 0; 0] 0 [5] 1 1
  = Ret (ValidationFailed, [5], 1, 1)
  /\ Array.validate Int8 0 [7; 0; 0] 0 [5] 2 4
     = Ret (ValidationNeedMoreData, [5], 2, 4)
  /\ Array.validate Int8 0 [7; 0; 0] 0 [5] 1 4
     = Ret (ValidationOK, [5], 1 + 2, 4 - 2).
Proof.
  split; [| split].
  - refine (proj1 (Array_validate_edges Int8 0 [7; 0; 0] 0 [5] 1 1 _ _ _) _);
      unfold Buffer.length; simpl; lia.
  - refine (proj1 (proj2 (Array_validate_edges
                            Int8 0 [7; 0; 0] 0 [5] 2 4 _ _ _)) _ _);
      unfold Buffer.length, Buffer.available; simpl; lia.
  - refine (proj2 (proj2 (Array_validate_edges
                            Int8 0 [7; 0; 0] 0 [5] 1 4 _ _ _)) _ _);
      try (unfold Buffer.length; simpl; lia).
    reflexivity.
Defined.

(** ** Sizes *)

Lemma getSize_sum_range (T : Field.t) (value_ : list (Field.state T)) :
  forall acc,
    0 <= acc < 2 ^ 16 ->
    0 <= fold_left (fun size elem => uint16 (size + Field.getSize T elem))
                   value_ acc < 2 ^ 16.
Proof.
  induction value_ as [| e es IH]; intros acc Hacc; simpl; [assumption |].
  apply IH. unfold uint16. apply Z.mod_pos_bound. lia.
Qed.

Lemma getSize_sum_exact (T : Field.t) (value_ : list (Field.state T)) :
  Forall (fun elem =>
            Field.getSize T elem
            = Z.of_nat (List.length (Field.write T elem))) value_ ->
  forall acc,
    0 <= acc ->
    acc + Z.of_nat (List.length (concat (map (Field.write T) value_)))
    < 2 ^ 16 ->
    fold_left (fun size elem => uint16 (size + Field.getSize T elem))
              value_ acc
    = acc + Z.of_nat (List.length (concat (map (Field.write T) value_))).
Proof.
  induction 1 as [| elem rest He Hrest IH]; intros acc Hacc Hlt; simpl in *.
  - lia.
  - rewrite length_app in Hlt. rewrite length_app, He.
    rewrite uint16_small by lia. rewrite IH; lia.
Qed.

(** X11. Whatever an array or a repetition holds, [Array<T>::getSize] lies
    between 2 and 65537 and [Repeated<T>::getSize] between 0 and 65535: the
    sum of the element sizes is kept in 16 bits. *)
Theorem container_getSize_bounds (T : Field.t)
    (value_ : list (Field.state T)) :
  2 <= Array.getSize T value_ <= 65537
  /\ 0 <= Repeated.getSize T value_ <= 65535.
Proof.
  unfold Array.getSize, Repeated.getSize.
  pose proof (getSize_sum_range T value_ 0 ltac:(lia)) as H.
  cbv zeta. rewrite !int32_small; lia.
Qed.

(** X12. As long as the elements of an array or a repetition report the
    size they write and write fewer than 65536 bytes in total, [getSize] of
    the container is the number of bytes its [write] emits; and a sequence
    whose first field and remainder report the sizes they write, below 2^31
    in total, reports the size it writes. *)
Theorem getSize_exact_below_limits (T F R : Field.t)
    (value_ : list (Field.state T)) (s : Field.state (Sequence.cons F R)) :
  Forall (fun elem =>
            Field.getSize T elem
            = Z.of_nat (List.length (Field.write T elem))) value_ ->
  Z.of_nat (List.length (concat (map (Field.write T) value_))) < 2 ^ 16 ->
  Field.getSize F (fst s) = Z.of_nat (List.length (Field.write F (fst s))) ->
  Field.getSize R (snd s) = Z.of_nat (List.length (Field.write R (snd s))) ->
  Z.of_nat (List.length (Field.write (Sequence.cons F R) s)) < 2 ^ 31 ->
  Array.getSize T value_ = Z.of_nat (List.length (Array.write T value_))
  /\ Repeated.getSize T value_
     = Z.of_nat (List.length (Repeated.write T value_))
  /\ Field.getSize (Sequence.cons F R) s
     = Z.of_nat (List.length (Field.write (Sequence.cons F R) s)).
Proof.
  intros Hexact Htotal HF HR Hseq. split; [| split].
  - unfold Array.getSize, Array.write.
    rewrite (getSize_sum_exact T value_ Hexact 0) by lia.
    rewrite length_app. unfold Buffer.writeBEInt. rewrite encodeBE_length.
    rewrite int32_small; lia.
  - unfold Repeated.getSize, Repeated.write.
    rewrite (getSize_sum_exact T value_ Hexact 0) by lia.
    rewrite int32_small; lia.
  - simpl in *. unfold Sequence.getSize, Sequence.write in *.
    rewrite length_app in *. rewrite HF, HR. rewrite int32_small; lia.
Qed.

Lemma getSize_exact_below_limits_witness :
  Array.getSize Int16 [1; 2; 3]
  = Z.of_nat (List.length (Array.write Int16 [1; 2; 3]))
  /\ Repeated.getSize Int16 [1; 2; 3]
     = Z.of_nat (List.length (Repeated.write Int16 [1; 2; 3]))
  /\ Field.getSize (Sequence.cons Int8 (Sequence.field [Int32])) (7, (9, tt))
     = Z.of_nat (List.length
                   (Field.write (Sequence.cons Int8 (Sequence.field [Int32]))
                                (7, (9, tt)))).
Proof.
  apply (getSize_exact_below_limits Int16 Int8 (Sequence.field [Int32])
           [1; 2; 3] (7, (9, tt))).
  - repeat constructor.
  - simpl. lia.
  - reflexivity.
  - reflexivity.
  - simpl. lia.
Defined.

(** X13. Sizes of the fields whose [getSize] and [write] are inline in
    the header. An integer of width 1, 2 or 4 reports and writes its width.
    Below 2^31 bytes, a [String] reports and writes its length plus the
    terminating zero, which is its last byte; a [ByteN] its length; a
    [VarByteN] with a value writes the 4-byte length and the value and
    reports both; a [VarByteN] without a value writes the four bytes of -1
    and reports 4. *)
Theorem primitive_getSize_is_written_length
    (size v : Z) (bytes : list Z) (string_state : String.state) :
  size = 1 \/ size = 2 \/ size = 4 ->
  Z.of_nat (List.length (String.value_ string_state)) + 1 < 2 ^ 31 ->
  Z.of_nat (List.length bytes) + 4 < 2 ^ 31 ->
  (Int.getSize size v = size
   /\ Z.of_nat (List.length (Int.write size v)) = size)
  /\ (String.getSize string_state
      = Z.of_nat (List.length (String.write string_state))
      /\ String.write string_state = String.value_ string_state ++ [0])
  /\ ByteN.getSize bytes = Z.of_nat (List.length (ByteN.write bytes))
  /\ (VarByteN.getSize (Some bytes)
      = Z.of_nat (List.length (VarByteN.write (Some bytes)))
      /\ VarByteN.write (Some bytes)
         = Buffer.writeBEInt 4 (Z.of_nat (List.length bytes)) ++ bytes)
  /\ (VarByteN.getSize None = 4
      /\ VarByteN.write None = [255; 255; 255; 255]).
Proof.
  intros Hsize Hstring Hbytes. repeat split.
  - unfold Int.write, Buffer.writeBEInt. rewrite encodeBE_length. lia.
  - unfold String.getSize, String.write. rewrite length_app. simpl.
    rewrite int32_small; lia.
  - unfold ByteN.getSize, ByteN.write. rewrite int32_small; lia.
  - unfold VarByteN.getSize, VarByteN.write, Buffer.writeBEInt.
    rewrite length_app, encodeBE_length. rewrite int32_small; lia.
Qed.

Lemma primitive_getSize_is_written_length_witness :
  (Int.getSize 2 515 = 2
   /\ Z.of_nat (List.length (Int.write 2 515)) = 2)
  /\ (String.getSize (String.Make 0 0 [83; 81])
      = Z.of_nat (List.length (String.write (String.Make 0 0 [83; 81])))
      /\ String.write (String.Make 0 0 [83; 81])
         = String.value_ (String.Make 0 0 [83; 81]) ++ [0])
  /\ ByteN.getSize [1; 2; 3] = Z.of_nat (List.length (ByteN.write [1; 2; 3]))
  /\ (VarByteN.getSize (Some [1; 2; 3])
      = Z.of_nat (List.length (VarByteN.write (Some [1; 2; 3])))
      /\ VarByteN.write (Some [1; 2; 3])
         = Buffer.writeBEInt 4 (Z.of_nat (List.length [1; 2; 3]))
           ++ [1; 2; 3])
  /\ (VarByteN.getSize None = 4
      /\ VarByteN.write None = [255; 255; 255; 255]).
Proof.
  apply (primitive_getSize_is_written_length
           2 515 [1; 2; 3] (String.Make 0 0 [83; 81]));
    simpl; lia.
Defined.

(** ** Integers on the wire *)

Lemma decodeBE_encodeBE (n : nat) (v : Z) :
  Buffer.decodeBE (Buffer.encodeBE n v) = v mod 256 ^ Z.of_nat n.
Proof.
  revert v. induction n as [| n IH]; intros v.
  - simpl. now rewrite Z.mod_1_r.
  - cbn [Buffer.encodeBE]. rewrite decodeBE_snoc, IH.
    rewrite Nat2Z.inj_succ, Z.pow_succ_r by lia.
    rewrite (Z.rem_mul_r v 256 (256 ^ Z.of_nat n)) by lia. lia.
Qed.

Lemma slice_middle (pre mid post : list Z) :
  Buffer.slice (pre ++ mid ++ post) (Buffer.length pre)
               (Buffer.length pre + Buffer.length mid)
  = mid.
Proof.
  unfold Buffer.slice, Buffer.length.
  rewrite Nat2Z.id.
  replace (Z.to_nat (Z.of_nat (List.length pre) + Z.of_nat (List.length mid)
                     - Z.of_nat (List.length pre)))
    with (List.length mid) by lia.
  rewrite skipn_app, skipn_all, Nat.sub_diag. simpl.
  rewrite firstn_app, firstn_all, Nat.sub_diag. simpl.
  now rewrite app_nil_r.
Qed.

(** X14. What [Int<T>::write] emits, [Int<T>::read] reads back: on a
    buffer that holds the bytes written for [v] at some position, [read] at
    that position returns true with the value [v] reduced to the width of
    the integer, and moves the cursor by the width. *)
Theorem Int_read_back_written (size v value_ left : Z)
    (pre post : list Z) :
  size = 1 \/ size = 2 \/ size = 4 ->
  Int.read size (pre ++ Int.write size v ++ post) value_
           (Buffer.length pre) left
  = Ret (true, v mod 256 ^ size,
         uint64 (Buffer.length pre + size), uint64 (left - size)).
Proof.
  intros Hsize. unfold Int.read, Buffer.peekBEInt.
  assert (Hw : Buffer.length (Int.write size v) = size).
  { unfold Buffer.length, Int.write, Buffer.writeBEInt.
    rewrite encodeBE_length. lia. }
  assert (Hlen : Buffer.length (pre ++ Int.write size v ++ post)
                 = Buffer.length pre + size + Buffer.length post).
  { unfold Buffer.length in *. rewrite !length_app. lia. }
  assert (0 <= Buffer.length post) by (unfold Buffer.length; lia).
  destruct (Z.leb_spec (Buffer.length pre + size)
                       (Buffer.length (pre ++ Int.write size v ++ post)));
    [| lia].
  cbn [bind].
  pose proof (slice_middle pre (Int.write size v) post) as Hs.
  rewrite Hw in Hs. rewrite Hs.
  unfold Int.write, Buffer.writeBEInt. rewrite decodeBE_encodeBE.
  rewrite Z2Nat.id by lia. reflexivity.
Qed.

Lemma Int_read_back_written_witness :
  Int.read 2 ([9] ++ Int.write 2 66051 ++ [8]) 0 (Buffer.length [9]) 5
  = Ret (true, 66051 mod 256 ^ 2,
         uint64 (Buffer.length [9] + 2), uint64 (5 - 2)).
Proof.
  apply (Int_read_back_written 2 66051 0 5 [9] [8]). lia.
Defined.

(** ** [Repeated<Int<T>>] *)

Lemma Repeated_Int_loop (size : Z) (fuel : nat) (data : Buffer.Instance)
    (so : Z) :
  size = 1 \/ size = 2 \/ size = 4 ->
  Buffer.length data < 2 ^ 64 ->
  forall (k n : nat) (value_ : list Z) (pos left r : Z),
    0 <= r < size ->
    left = size * Z.of_nat k + r ->
    (k < n)%nat ->
    0 <= pos ->
    pos + left <= Buffer.length data ->
    Repeated.validate_loop (Int.field size) n fuel data so value_ pos left
    = Ret (value_ ++ repeat 0 k, pos + size * Z.of_nat k, r).
Proof.
  intros Hsize Hlen. induction k as [| k IH];
    intros n value_ pos left r Hr Hleft Hn Hpos Hfit;
    (destruct n as [| n]; [lia |]).
  - cbn [Repeated.validate_loop].
    replace (pos + size * Z.of_nat 0) with pos by lia.
    replace left with r by lia. simpl repeat. rewrite app_nil_r.
    destruct (Z.eqb_spec r 0); [reflexivity |].
    simpl. unfold Int.validate.
    destruct (Z.ltb_spec r size); [reflexivity | lia].
  - cbn [Repeated.validate_loop].
    destruct (Z.eqb_spec left 0); [lia |].
    simpl Field.validate. simpl Field.init. unfold Int.validate.
    destruct (Z.ltb_spec left size); [lia |].
    rewrite (uint64_small (Buffer.length data - pos)) by lia.
    destruct (Z.ltb_spec (Buffer.length data - pos) size); [lia |].
    rewrite !uint64_small by lia. cbn [bind is_OK].
    etransitivity; [apply (IH n _ _ _ r); lia |].
    rewrite <- app_assoc. simpl. do 3 f_equal. lia.
Qed.

(** X15. A [Repeated<Int<T>>] of width [size], at a cursor with the whole
    budget [left] in the buffer, validates exactly [left / size] elements,
    moves over [size * (left / size)] bytes and returns [ValidationOK] with
    [left mod size] bytes of the budget not consumed. *)
Theorem Repeated_Int_validate_count (size : Z) (fuel : nat)
    (data : Buffer.Instance) (start_offset : Z) (value_ : list Z)
    (pos left : Z) :
  size = 1 \/ size = 2 \/ size = 4 ->
  Buffer.length data < 2 ^ 64 ->
  0 <= pos ->
  0 <= left ->
  pos + left <= Buffer.length data ->
  (Z.to_nat (left / size) < fuel)%nat ->
  Repeated.validate (Int.field size) fuel data start_offset value_ pos left
  = Ret (ValidationOK,
         value_ ++ repeat 0 (Z.to_nat (left / size)),
         pos + size * (left / size),
         left mod size).
Proof.
  intros Hsize Hlen Hpos Hleft Hfit Hfuel. unfold Repeated.validate.
  rewrite (uint64_small (Buffer.length data - pos)) by lia.
  destruct (Z.ltb_spec (Buffer.length data - pos) left); [lia |].
  assert (Hdiv : 0 <= left / size) by (apply Z.div_pos; lia).
  rewrite (Repeated_Int_loop size fuel data start_offset Hsize Hlen
             (Z.to_nat (left / size)) fuel value_ pos left (left mod size));
    try lia.
  - cbn [bind]. rewrite Z2Nat.id by lia. reflexivity.
  - apply Z.mod_pos_bound. lia.
  - rewrite Z2Nat.id by lia. apply Z.div_mod. lia.
Qed.

Lemma Repeated_Int_validate_count_witness :
  Repeated.validate (Int.field 2) 4 [1; 2; 3; 4; 5; 6] 0 [] 1 5
  = Ret (ValidationOK, [] ++ repeat 0 (Z.to_nat (5 / 2)),
         1 + 2 * (5 / 2), 5 mod 2).
Proof.
  apply (Repeated_Int_validate_count 2 4 [1; 2; 3; 4; 5; 6] 0 [] 1 5);
    unfold Buffer.length; simpl; lia.
Defined.

(** ** [Sequence::validate] as a composition *)

Lemma Sequence_validate_OK_compose (F R : Field.t) (fuel : nat)
    (data : Buffer.Instance) (so : Z) (s : Sequence.state F R)
    (pos left : Z) first' p1 l1 remaining' p2 l2 :
  Field.validate F fuel data so (fst s) pos left
    = Ret (ValidationOK, first', p1, l1) ->
  Field.validate R fuel data so (snd s) p1 l1
    = Ret (ValidationOK, remaining', p2, l2) ->
  Sequence.validate F R fuel data so s pos left
  = Ret (ValidationOK, (first', remaining'), p2, l2).
Proof.
  intros H1 H2. unfold Sequence.validate. rewrite H1. cbn [bind is_OK].
  rewrite H2. reflexivity.
Qed.

(** X16. [Sequence::validate] returns [ValidationOK] exactly when every
    field of the chain, validated in declared order from where the one
    before it stopped, returned [ValidationOK]; the members and the cursor
    it returns are those left by the fields. *)
Theorem Sequence_validate_OK_iff (fuel : nat) (data : Buffer.Instance)
    (start_offset : Z) (Types : list Field.t)
    (s s' : Field.state (Sequence.field Types)) (pos left pos' left' : Z) :
  Field.validate (Sequence.field Types) fuel data start_offset s pos left
  = Ret (ValidationOK, s', pos', left')
  <-> fields_ok fuel data start_offset Types s pos left s' pos' left'.
Proof.
  split.
  - revert s s' pos left pos' left'.
    induction Types as [| F Types IH]; intros s s' pos left pos' left' H.
    + simpl in H. inversion H; subst. constructor.
    + rewrite Sequence_validate_unfold in H.
      apply Sequence_validate_inv in H.
      destruct H as [(f' & p1 & l1 & _ & Hne & _)
                    | (f' & p1 & l1 & r' & p2 & l2 & E1 & E2 & -> & Hend)];
        [congruence |].
      destruct Hend as [(_ & -> & ->) | (Hne & _)]; [| congruence].
      econstructor; eauto.
  - induction 1 as [s pos left
                   | F Types s pos left f' p1 l1 r' p2 l2 HF Hrest IH].
    + reflexivity.
    + rewrite Sequence_validate_unfold.
      now apply Sequence_validate_OK_compose with (p1 := p1) (l1 := l1).
Qed.

(** ** Written, then validated and read *)

Lemma app_eq_length_inv {A : Type} (x y x' y' : list A) :
  x ++ y = x' ++ y' -> List.length x = List.length x' ->
  x = x' /\ y = y'.
Proof.
  revert x'. induction x as [| a x IH]; intros [| a' x'] H Hlen;
    simpl in *; try discriminate; [auto |].
  inversion H; subst. destruct (IH x') as [-> ->]; auto.
Qed.

Lemma slice_split (data : Buffer.Instance) (pos : Z) (x y : list Z) :
  0 <= pos ->
  Buffer.slice data pos (pos + Z.of_nat (List.length (x ++ y))) = x ++ y ->
  Buffer.slice data pos (pos + Z.of_nat (List.length x)) = x
  /\ Buffer.slice data (pos + Z.of_nat (List.length x))
                  (pos + Z.of_nat (List.length x)
                   + Z.of_nat (List.length y)) = y.
Proof.
  intros Hpos H.
  replace (pos + Z.of_nat (List.length (x ++ y)))
    with (pos + Z.of_nat (List.length x) + Z.of_nat (List.length y)) in H
    by (rewrite length_app; lia).
  rewrite <- (slice_app data pos (pos + Z.of_nat (List.length x))) in H
    by lia.
  apply app_eq_length_inv in H; [assumption |].
  apply (f_equal (@List.length Z)) in H. rewrite !length_app in H.
  unfold Buffer.slice in *. rewrite !length_firstn in *.
  rewrite !length_skipn in *. lia.
Qed.

Lemma Int_reads_back (size v : Z) :
  size = 1 \/ size = 2 \/ size = 4 ->
  0 <= v < 256 ^ size ->
  reads_back (Int.field size) v.
Proof.
  intros Hsize Hv fuel data so pos left Hlen Hso.
  simpl. unfold Int.write, Buffer.writeBEInt. rewrite encodeBE_length.
  rewrite Z2Nat.id by lia. intros Hfit Hslice Hleft.
  exists 0. unfold Int.validate, Int.read. split.
  - destruct (Z.ltb_spec left size); [lia |].
    rewrite (uint64_small (Buffer.length data - pos)) by lia.
    destruct (Z.ltb_spec (Buffer.length data - pos) size); [lia |].
    now rewrite !uint64_small by lia.
  - rewrite peekBEInt_drain by lia. unfold Buffer.peekBEInt.
    destruct (Z.leb_spec (pos + size) (Buffer.length data)); [| lia].
    cbn [bind]. rewrite Hslice, decodeBE_encodeBE.
    rewrite Z2Nat.id by lia. rewrite Z.mod_small by lia.
    rewrite !uint64_small by lia. do 3 f_equal. lia.
Qed.

(** Equal results up to arithmetic on the cursor. *)
Ltac same_result :=
  repeat match goal with
         | |- Ret _ = Ret _ => f_equal
         | |- (_, _) = (_, _) => f_equal
         end;
  try reflexivity; try lia.

Lemma elements_read_back_nil (T : Field.t) : elements_read_back T [].
Proof.
  intros fuel data so op ol value_ pos left Hlen Hso Hfit Hslice Hleft.
  exists []. simpl. rewrite app_nil_r, Z.add_0_r, Z.sub_0_r. auto.
Qed.

Lemma elements_read_back_cons (T : Field.t) (elem : Field.state T)
    (elems : list (Field.state T)) :
  reads_back T elem -> elements_read_back T elems ->
  elements_read_back T (elem :: elems).
Proof.
  intros He Hes fuel data so op ol value_ pos left Hlen Hso.
  cbn [map concat List.length]. intros Hfit Hslice Hleft.
  destruct (slice_split data pos _ _ ltac:(lia) Hslice) as [Hs1 Hs2].
  rewrite length_app in Hfit, Hleft.
  set (n1 := Z.of_nat (List.length (Field.write T elem))) in *.
  set (n2 := Z.of_nat (List.length (concat (map (Field.write T) elems))))
    in *.
  destruct (He fuel data so pos left Hlen Hso ltac:(lia) Hs1 ltac:(lia))
    as (s1 & Hv & Hr).
  destruct (Hes fuel data so op ol (value_ ++ [s1]) (pos + n1) (left - n1)
              Hlen ltac:(lia) ltac:(lia) Hs2 ltac:(lia))
    as (items & Hloop & Hrloop).
  exists (s1 :: items). fold n1 in Hv, Hr. split.
  - cbn [Array.validate_loop]. rewrite Hv. cbn [bind is_OK].
    rewrite Hloop. rewrite <- app_assoc. simpl.
    rewrite length_app. fold n1 n2. same_result.
  - cbn [Array.read_loop]. rewrite Hr. cbn [bind].
    rewrite Hrloop. cbn [bind].
    rewrite length_app. fold n1 n2. same_result.
Qed.

Lemma Array_reads_back (T : Field.t) (elems : list (Field.state T)) :
  elements_read_back T elems ->
  Z.of_nat (List.length elems) < 2 ^ 16 ->
  reads_back (Array.field T) elems.
Proof.
  intros Hes Hcount fuel data so pos left Hlen Hso.
  cbn [Field.write Array.field Field.init Field.validate Field.read].
  unfold Array.write. intros Hfit Hslice Hleft.
  destruct (slice_split data pos _ _ ltac:(lia) Hslice) as [Hs1 Hs2].
  rewrite length_app in Hfit, Hleft.
  unfold Buffer.writeBEInt in Hs1, Hs2, Hfit, Hleft.
  rewrite encodeBE_length in Hs1, Hs2, Hfit, Hleft.
  unfold Buffer.writeBEInt. rewrite length_app, encodeBE_length.
  change (Z.of_nat (Z.to_nat 2)) with 2 in *.
  set (m := Z.of_nat (List.length (concat (map (Field.write T) elems))))
    in *.
  assert (Hpeek : Buffer.peekBEInt 2 data pos
                  = Ret (Z.of_nat (List.length elems))).
  { unfold Buffer.peekBEInt.
    destruct (Z.leb_spec (pos + 2) (Buffer.length data)); [| lia].
    rewrite Hs1, decodeBE_encodeBE.
    change (256 ^ Z.of_nat (Z.to_nat 2)) with (2 ^ 16).
    rewrite Z.mod_small by lia. reflexivity. }
  destruct (Hes fuel data so pos left [] (pos + 2) (left - 2)
              Hlen ltac:(lia) ltac:(lia) Hs2 ltac:(lia))
    as (items & Hloop & Hrloop).
  exists items. split.
  - destruct (Array_validate_checked T fuel data so [] pos left
                Hlen ltac:(lia) ltac:(lia))
      as [[? _] | [(_ & ? & _) | (_ & _ & size & Hpeek' & ->)]];
      try lia.
    rewrite Hpeek in Hpeek'. inversion Hpeek'; subst size.
    rewrite Nat2Z.id. rewrite Hloop. fold m.
    same_result.
  - unfold Array.read. rewrite peekBEInt_drain, Hpeek by lia.
    cbn [bind]. rewrite Nat2Z.id. rewrite !uint64_small by lia.
    replace (pos - so + 2) with (pos + 2 - so) by lia.
    rewrite Hrloop. cbn [bind]. fold m. same_result.
Qed.

Lemma Sequence_empty_reads_back : reads_back Sequence.empty tt.
Proof.
  intros fuel data so pos left Hlen Hso Hfit Hslice Hleft.
  exists tt. simpl. rewrite Z.add_0_r, Z.sub_0_r. auto.
Qed.

Lemma Sequence_cons_reads_back (F R : Field.t)
    (first : Field.state F) (remaining : Field.state R) :
  reads_back F first -> reads_back R remaining ->
  reads_back (Sequence.cons F R) (first, remaining).
Proof.
  intros HF HR fuel data so pos left Hlen Hso.
  cbn [Field.write Sequence.cons Field.init Field.validate Field.read].
  unfold Sequence.write. cbn [fst snd]. intros Hfit Hslice Hleft.
  destruct (slice_split data pos _ _ ltac:(lia) Hslice) as [Hs1 Hs2].
  rewrite length_app in Hfit, Hleft. rewrite length_app.
  set (n1 := Z.of_nat (List.length (Field.write F first))) in *.
  set (n2 := Z.of_nat (List.length (Field.write R remaining))) in *.
  destruct (HF fuel data so pos left Hlen Hso ltac:(lia) Hs1 ltac:(lia))
    as (f1 & Hv1 & Hr1).
  destruct (HR fuel data so (pos + n1) (left - n1)
              Hlen ltac:(lia) ltac:(lia) Hs2 ltac:(lia))
    as (r1 & Hv2 & Hr2).
  fold n1 in Hv1, Hr1. fold n2 in Hv2, Hr2.
  exists (f1, r1). unfold Sequence.validate, Sequence.read. cbn [fst snd].
  split.
  - rewrite Hv1. cbn [bind is_OK]. rewrite Hv2. cbn [bind is_OK].
    same_result.
  - rewrite Hr1. cbn [bind]. rewrite Hr2. cbn [bind].
    same_result.
Qed.

Lemma wire_value_reads_back (F : Field.t) (s : Field.state F) :
  wire_value F s -> reads_back F s.
Proof.
  apply (wire_value_mut reads_back elements_read_back).
  - intros size v Hsize Hv. now apply Int_reads_back.
  - intros T elems _ Hes Hcount. now apply Array_reads_back.
  - apply Sequence_empty_reads_back.
  - intros G R first remaining _ HG _ HR.
    now apply Sequence_cons_reads_back.
  - apply elements_read_back_nil.
  - intros T elem elems _ He _ Hes. now apply elements_read_back_cons.
Qed.

(** X17. What a typed message writes can be validated and read back. For a
    message whose fields are integers within the range of their width,
    arrays of fewer than 65536 elements and sequences of such fields, the
    frame written is five bytes longer than the payload; its bytes 1 to 4
    hold [getSize() + 4] modulo 2^32; and on a buffer that starts with the
    frame, a fresh message of the same type validates the payload at
    position 5 with [ValidationOK], and [read] on the buffer drained of the
    five header bytes returns true with the field values that were
    written. *)
Theorem TypedMessage_write_then_read (Identifier : Z)
    (Types : list Field.t) (m : Message.t Types) (fuel : nat)
    (more : list Z) :
  wire_value (Sequence.field Types) (Message.fields m) ->
  5 + Z.of_nat (List.length
                  (Field.write (Sequence.field Types) (Message.fields m)))
  + Buffer.length more < 2 ^ 64 ->
  exists frame m1 m2,
    TypedMessage.write Identifier Types m = Ret frame
    /\ Buffer.length frame
       = 5 + Z.of_nat (List.length
                         (Field.write (Sequence.field Types)
                                      (Message.fields m)))
    /\ Buffer.peekBEInt 4 (frame ++ more) 1
       = Ret (uint32 (Field.getSize (Sequence.field Types)
                                    (Message.fields m) + 4))
    /\ MessageImpl.validate Types fuel (frame ++ more) 5
         (Buffer.length frame - 5) (Message.init Types)
       = Ret (ValidationOK, m1)
    /\ MessageImpl.read Types (Buffer.drain 5 (frame ++ more))
         (Buffer.length frame - 5) m1
       = Ret (true, m2)
    /\ Message.fields m2 = Message.fields m.
Proof.
  intros Hwire Hsize.
  assert (Hmore : 0 <= Buffer.length more) by (unfold Buffer.length; lia).
  destruct Types as [| F Types].
  - destruct m as [vr []].
    exists [Identifier mod 256; 0; 0; 0; 4], (Message.init []),
           (Message.init []).
    repeat split.
    unfold Buffer.peekBEInt.
    destruct (Z.leb_spec (1 + 4)
                (Buffer.length ([Identifier mod 256; 0; 0; 0; 4] ++ more)));
      [reflexivity |].
    unfold Buffer.length in *. rewrite length_app in *. simpl List.length in *.
    lia.
  - set (payload :=
           Field.write (Sequence.field (F :: Types)) (Message.fields m)) in *.
    set (size :=
           Field.getSize (Sequence.field (F :: Types)) (Message.fields m)).
    set (header := Buffer.writeByte Identifier ++ Buffer.writeBEInt 4 (size + 4)).
    assert (Hheader : Buffer.length header = 5) by reflexivity.
    assert (Hframe : TypedMessage.write Identifier (F :: Types) m
                     = Ret (header ++ payload)).
    { unfold TypedMessage.write, MessageImpl.write_identifier.
      cbn [MessageImpl.no_fields]. unfold header. now rewrite <- app_assoc. }
    assert (Hlen : Buffer.length (header ++ payload)
                   = 5 + Z.of_nat (List.length payload)).
    { unfold Buffer.length in *. rewrite length_app. lia. }
    assert (Hdata : Buffer.length ((header ++ payload) ++ more)
                    = 5 + Z.of_nat (List.length payload)
                      + Buffer.length more).
    { unfold Buffer.length in *. rewrite !length_app. lia. }
    assert (Hslice : Buffer.slice ((header ++ payload) ++ more) 5
                       (5 + Z.of_nat (List.length payload)) = payload).
    { rewrite <- app_assoc. rewrite <- Hheader.
      apply (slice_middle header payload more). }
    assert (H1 : Buffer.length ((header ++ payload) ++ more) < 2 ^ 64)
      by lia.
    assert (H2 : 0 <= 5 <= 5) by lia.
    assert (H3 : 5 + Z.of_nat (List.length payload)
                 <= Buffer.length ((header ++ payload) ++ more)) by lia.
    assert (H4 : Z.of_nat (List.length payload)
                 <= Z.of_nat (List.length payload) < 2 ^ 64) by lia.
    destruct (wire_value_reads_back _ _ Hwire fuel
                ((header ++ payload) ++ more) 5 5
                (Z.of_nat (List.length payload)) H1 H2 H3 Hslice H4)
      as (s1 & Hv & Hr).
    fold payload in Hv, Hr.
    exists (header ++ payload), (Message.Make ValidationOK s1),
           (@Message.Make (F :: Types) ValidationOK (Message.fields m)).
    rewrite Hlen.
    replace (5 + Z.of_nat (List.length payload) - 5)
      with (Z.of_nat (List.length payload)) by lia.
    repeat split; try assumption.
    + unfold Buffer.peekBEInt.
      destruct (Z.leb_spec (1 + 4)
                  (Buffer.length ((header ++ payload) ++ more))); [| lia].
      unfold header. rewrite <- !app_assoc.
      change (Buffer.slice
                (Buffer.writeByte Identifier
                 ++ Buffer.writeBEInt 4 (size + 4) ++ payload ++ more)
                1 (1 + 4))
        with (Buffer.slice
                (Buffer.writeByte Identifier
                 ++ Buffer.writeBEInt 4 (size + 4) ++ payload ++ more)
                (Buffer.length (Buffer.writeByte Identifier))
                (Buffer.length (Buffer.writeByte Identifier)
                 + Buffer.length (Buffer.writeBEInt 4 (size + 4)))).
      rewrite slice_middle. unfold Buffer.writeBEInt.
      rewrite decodeBE_encodeBE. reflexivity.
    + unfold MessageImpl.validate, Message.init.
      cbn [MessageImpl.no_fields Message.fields].
      rewrite Hv. reflexivity.
    + unfold MessageImpl.read. cbn [MessageImpl.no_fields].
      cbn [Message.validation_result_ is_OK ASSERT bind Message.fields].
      rewrite Z.sub_diag in Hr. rewrite Hr. reflexivity.
Qed.

Lemma TypedMessage_write_then_read_witness :
  exists frame m1 m2,
    TypedMessage.write 68 [Int16; Array.field Int8]
      (@Message.Make [Int16; Array.field Int8] ValidationNeedMoreData
                     (513, ([7; 8], tt)))
    = Ret frame
    /\ Buffer.length frame
       = 5 + Z.of_nat (List.length
                         (Field.write (Sequence.field [Int16; Array.field Int8])
                                      (513, ([7; 8], tt))))
    /\ Buffer.peekBEInt 4 (frame ++ [1]) 1
       = Ret (uint32 (Field.getSize (Sequence.field [Int16; Array.field Int8])
                                    (513, ([7; 8], tt)) + 4))
    /\ MessageImpl.validate [Int16; Array.field Int8] 0 (frame ++ [1]) 5
         (Buffer.length frame - 5) (Message.init [Int16; Array.field Int8])
       = Ret (ValidationOK, m1)
    /\ MessageImpl.read [Int16; Array.field Int8]
         (Buffer.drain 5 (frame ++ [1])) (Buffer.length frame - 5) m1
       = Ret (true, m2)
    /\ Message.fields m2 = (513, ([7; 8], tt)).
Proof.
  apply (TypedMessage_write_then_read 68 [Int16; Array.field Int8]
           (@Message.Make [Int16; Array.field Int8] ValidationNeedMoreData
                          (513, ([7; 8], tt))) 0 [1]).
  - apply (wire_Sequence_cons Int16 (Sequence.field [Array.field Int8])
             513 ([7; 8], tt)).
    + apply wire_Int; lia.
    + apply (wire_Sequence_cons (Array.field Int8) Sequence.empty
               [7; 8] tt).
      * apply wire_Array; [| simpl; lia].
        apply wire_elements_cons; [apply wire_Int; lia |].
        apply wire_elements_cons; [apply wire_Int; lia |].
        apply wire_elements_nil.
      * apply wire_Sequence_empty.
  - unfold Buffer.length. simpl. lia.
Defined.

(** ** What a validation that stops keeps *)

Lemma Array_loop_not_OK_clears (T : Field.t) (n : nat) :
  forall fuel data so orig_pos orig_left value_ pos left r v pos' left',
    Array.validate_loop T n fuel data so orig_pos orig_left value_ pos left
    = Ret (r, v, pos', left') ->
    r <> ValidationOK ->
    v = [] /\ pos' = orig_pos /\ left' = orig_left.
Proof.
  induction n as [| n IH];
    intros fuel data so op ol value_ pos left r v pos' left' H Hr.
  - simpl in H. inversion H; subst. congruence.
  - simpl in H. run_inv H r1 item p1 l1 E1.
    destruct (is_OK r1); [eapply IH; eauto |].
    inversion H; subst. auto.
Qed.

Lemma Array_validate_not_OK (T : Field.t) (fuel : nat)
    (data : Buffer.Instance) (so : Z) (value_ s' : Array.state T)
    (pos left pos' left' : Z) (r : ValidationResult) :
  Array.validate T fuel data so value_ pos left = Ret (r, s', pos', left') ->
  r <> ValidationOK ->
  pos' = pos /\ left' = left
  /\ ((left < 2 \/ uint64 (Buffer.length data - pos) < 2) /\ s' = value_
      \/ s' = []).
Proof.
  unfold Array.validate.
  destruct (Z.ltb_spec left 2);
    [intros E _; inversion E; subst; intuition |].
  destruct (Z.ltb_spec (uint64 (Buffer.length data - pos)) 2);
    [intros E _; inversion E; subst; intuition |].
  destruct (Buffer.peekBEInt 2 data pos) as [size | h]; cbn [bind];
    [| discriminate].
  intros Hloop Hr.
  destruct (Array_loop_not_OK_clears T _ _ _ _ _ _ _ _ _ _ _ _ _ Hloop Hr)
    as (-> & -> & ->).
  auto.
Qed.

(** C10 (as amended). When the loop of [Repeated<T>::validate] stops because
    an element returned a result other than [ValidationOK], the elements
    validated before it stay in [value_], the call reports [ValidationOK],
    and [write] emits them. In the same situation the loop of
    [Array<T>::validate] returns the element's result with no element kept
    and the cursor as before the count; in general an [Array<T>::validate]
    that does not return [ValidationOK] leaves the cursor as it was and its
    elements either untouched (a check before the count failed) or
    cleared. [Sequence::validate], when a later field does not return
    [ValidationOK], rolls the cursor back but leaves the members of the
    fields already validated as their [validate] left them. *)
Theorem Repeated_keeps_Array_clears_Sequence_rolls_back
    (T : Field.t) (fuel : nat) (data : Buffer.Instance) (start_offset : Z)
    (value_ items : Repeated.state T) (item : Field.state T)
    (pos left pos1 left1 pos2 left2 : Z) (result : ValidationResult) :
  left <= uint64 (Buffer.length data - pos) ->
  repeated_ok T fuel data start_offset pos left items pos1 left1 ->
  left1 <> 0 ->
  Field.validate T fuel data start_offset (Field.init T) pos1 left1
    = Ret (result, item, pos2, left2) ->
  result <> ValidationOK ->
  (List.length items < fuel)%nat ->
  (Repeated.validate T fuel data start_offset value_ pos left
   = Ret (ValidationOK, value_ ++ items, pos2, left2)
   /\ Repeated.write T (value_ ++ items)
      = Repeated.write T value_ ++ concat (map (Field.write T) items))
  /\ (forall n orig_pos orig_left held,
         (List.length items < n)%nat ->
         Array.validate_loop T n fuel data start_offset orig_pos orig_left
                             held pos left
         = Ret (result, [], orig_pos, orig_left))
  /\ (forall held held' apos aleft apos' aleft' r,
         Array.validate T fuel data start_offset held apos aleft
         = Ret (r, held', apos', aleft') ->
         r <> ValidationOK ->
         apos' = apos /\ aleft' = aleft
         /\ ((aleft < 2 \/ uint64 (Buffer.length data - apos) < 2)
             /\ held' = held
             \/ held' = []))
  /\ (forall (F R : Field.t) (s : Sequence.state F R) spos sleft
             first' p1 l1 r remaining' p2 l2,
         Field.validate F fuel data start_offset (fst s) spos sleft
         = Ret (ValidationOK, first', p1, l1) ->
         Field.validate R fuel data start_offset (snd s) p1 l1
         = Ret (r, remaining', p2, l2) ->
         r <> ValidationOK ->
         Sequence.validate F R fuel data start_offset s spos sleft
         = Ret (r, (first', remaining'), spos, sleft)).
Proof.
  intros Hcheck Hok Hl1 Hval Hres Hfuel.
  split; [| split; [| split]].
  - eapply Repeated_validate_keeps_partial; eauto.
  - intros n orig_pos orig_left held Hn.
    apply repeated_ok_elements_ok in Hok.
    eapply Array_loop_failure; eauto.
  - intros held held' apos aleft apos' aleft' r.
    apply Array_validate_not_OK.
  - intros F R s spos sleft first' p1 l1 r remaining' p2 l2 H1 H2 Hr.
    unfold Sequence.validate. rewrite H1. cbn [bind is_OK].
    rewrite H2. cbn [bind]. now rewrite (is_OK_false _ Hr).
Qed.

(** A [Repeated<Int16>] over the three bytes [0; 1; 7] keeps the element
    made of the first two although the third is not a whole element, where
    the loop of an [Array<Int16>] keeps nothing; and a sequence of an
    [Array<Int8>] and an [Int32] over the same bytes rolls the cursor back
    with the array still holding its element. *)
Lemma Repeated_keeps_Array_clears_Sequence_rolls_back_witness :
  (Repeated.validate Int16 2 [0; 1; 7] 0 [] 0 3
   = Ret (ValidationOK, [] ++ [0], 2, 1)
   /\ Repeated.write Int16 ([] ++ [0])
      = Repeated.write Int16 [] ++ concat (map (Field.write Int16) [0]))
  /\ Array.validate_loop Int16 2 2 [0; 1; 7] 0 7 9 [5] 0 3
     = Ret (ValidationFailed, [], 7, 9)
  /\ Sequence.validate (Array.field Int8) (Sequence.field [Int32])
                       2 [0; 1; 7] 0 ([], (0, tt)) 0 7
     = Ret (ValidationNeedMoreData, ([0], (0, tt)), 0, 7).
Proof.
  destruct (Repeated_keeps_Array_clears_Sequence_rolls_back
              Int16 2 [0; 1; 7] 0 [] [0] 0 0 3 2 1 2 1 ValidationFailed)
    as (HR & HA & _ & HS).
  - vm_compute. discriminate.
  - apply (repeated_ok_cons Int16 2 _ 0 0 3 0 2 1 [] 2 1);
      [lia | reflexivity | apply repeated_ok_nil].
  - lia.
  - reflexivity.
  - discriminate.
  - simpl. lia.
  - split; [exact HR |]. split.
    + apply HA. simpl. lia.
    + apply (HS (Array.field Int8) (Sequence.field [Int32])
                ([], (0, tt)) 0 7 [0] 3 4 ValidationNeedMoreData
                (0, tt) 3 4).
      * reflexivity.
      * reflexivity.
      * discriminate.
Defined.

(** C10, counterexample. [Sequence::validate] does not discard what its
    fields have validated: a sequence of an [Array<Int8>] and an [Int32],
    freshly constructed, on the three bytes [0; 1; 7] returns
    [ValidationNeedMoreData] with the cursor rolled back and with the array
    still holding the element it validated. *)
Lemma Sequence_validate_keeps_validated_elements :
  Field.validate (Sequence.field [Array.field Int8; Int32]) 0 [0; 1; 7] 0
                 (Field.init (Sequence.field [Array.field Int8; Int32])) 0 7
  = Ret (ValidationNeedMoreData, ([0], (0, tt)), 0, 7)
  /\ Field.init (Sequence.field [Array.field Int8; Int32]) = ([], (0, tt))
  /\ ([0], (0, tt)) <> Field.init (Sequence.field [Array.field Int8; Int32]).
Proof. repeat split. discriminate. Qed.
